(** * SSE transport and session store of mongo-mcp

    A shallow embedding of [src/server/sse.ts] (class [SSEServerTransport]),
    [src/server/session-store.ts] (class [SessionStore]) and of the
    [POST /messages] handler of the server entry point, together with the
    properties of the transport life cycle, the wire framing and the
    registry.

    Modelling conventions.
    - JavaScript objects that are mutated in place live in explicit
      state: a transport method is a computation over the receiver
      ([self]) and the surrounding [World]; the store-level code runs over
      a heap of transports addressed by references.
    - [throw] / [try]-[catch] are an error monad layered on the state:
      a computation returns [Return a] or [Throw e] together with the
      state reached.  The bodies of the [async] methods of the transport
      contain no [await], so a call runs to completion synchronously and
      its promise is settled with that outcome.
    - The callbacks [onclose], [onerror], [onmessage] are supplied by the
      owner.  They are modelled as functions that may update the session
      store and may throw; every call is recorded in the trace, what a
      callback itself prints is not.  They do not re-enter the transport.
    - The push sink ([express.Response]) carries a fault plan that says
      which of the coming [write] calls throw. *)

From Stdlib Require Import String Ascii ZArith List Lia DecimalString.
From stdpp Require Import list strings.

Set Warnings "-register-all".
Open Scope string_scope.

(* ================================================================= *)
(** ** JSON values and [JSON.stringify] *)

(** Numbers are restricted to integers (no floating point). The fields of
    an object are kept in enumeration order. *)
Inductive Json :=
| JNull
| JBool (b : bool)
| JNum (n : Z)
| JStr (s : string)
| JArr (xs : list Json)
| JObj (fields : list (string * Json)).

Definition JSONRPCMessage := Json.

Definition LF : string := String (ascii_of_nat 10) EmptyString.

Definition DQUOTE : ascii := ascii_of_nat 34.

Definition hexDigit (n : nat) : ascii :=
  match n with
  | 0 => "0" | 1 => "1" | 2 => "2" | 3 => "3" | 4 => "4" | 5 => "5"
  | 6 => "6" | 7 => "7" | 8 => "8" | 9 => "9" | 10 => "a" | 11 => "b"
  | 12 => "c" | 13 => "d" | 14 => "e" | _ => "f"
  end%char.

(** The escape of one code unit inside a JSON string literal
    (ECMAScript QuoteJSONString). Bytes of 0x80 and above (UTF-8
    continuation and lead bytes) are copied. *)
Definition escapeChar (c : ascii) : string :=
  let n := nat_of_ascii c in
  if Nat.eqb n 8 then "\b"
  else if Nat.eqb n 9 then "\t"
  else if Nat.eqb n 10 then "\n"
  else if Nat.eqb n 12 then "\f"
  else if Nat.eqb n 13 then "\r"
  else if Nat.eqb n 34 then String "\" (String DQUOTE EmptyString)
  else if Nat.eqb n 92 then "\\"
  else if Nat.ltb n 32 then
    "\u00" +:+ String (hexDigit (n / 16)) (String (hexDigit (n mod 16)) EmptyString)
  else String c EmptyString.

Fixpoint escape (s : string) : string :=
  match s with
  | EmptyString => EmptyString
  | String c s' => escapeChar c +:+ escape s'
  end.

Definition quote (s : string) : string :=
  String DQUOTE (escape s +:+ String DQUOTE EmptyString).

Definition numberToString (n : Z) : string :=
  NilZero.string_of_int (Z.to_int n).

Fixpoint stringify (j : Json) : string :=
  match j with
  | JNull => "null"
  | JBool b => if b then "true" else "false"
  | JNum n => numberToString n
  | JStr s => quote s
  | JArr xs => "[" +:+ String.concat "," (map stringify xs) +:+ "]"
  | JObj fs =>
      "{" +:+ String.concat ","
                (map (fun kv => let '(k, v) := kv in
                                quote k +:+ ":" +:+ stringify v) fs) +:+ "}"
  end.

(* ================================================================= *)
(** ** Thrown values, outcomes and the state-and-exception monad *)

(** What a [throw] can carry: an [Error] instance, some other non-nullish
    value (rendered as a string), or [null]/[undefined]. *)
Inductive JsValue :=
| JsError (message : string)
| JsString (s : string)
| JsNullish.

(** [error instanceof Error] *)
Definition instanceofError (v : JsValue) : bool :=
  match v with JsError _ => true | _ => false end.

Inductive Outcome (A : Type) :=
| Return (a : A)
| Throw (e : JsValue).
Arguments Return {A} a.
Arguments Throw {A} e.

Definition M (S A : Type) : Type := S -> Outcome A * S.

Definition ret {S A} (a : A) : M S A := fun s => (Return a, s).
Definition throw {S A} (e : JsValue) : M S A := fun s => (Throw e, s).

Definition bind {S A B} (m : M S A) (k : A -> M S B) : M S B :=
  fun s => match m s with
           | (Return a, s') => k a s'
           | (Throw e, s') => (Throw e, s')
           end.

(** [try { m } catch (error) { h error }] *)
Definition try_catch {S A} (m : M S A) (h : JsValue -> M S A) : M S A :=
  fun s => match m s with
           | (Return a, s') => (Return a, s')
           | (Throw e, s') => h e s'
           end.

Declare Scope js_scope.
Delimit Scope js_scope with js.
Notation "x ← y ; z" := (bind y (fun x => z))
  (at level 20, y at level 100, z at level 200, only parsing) : js_scope.
Notation "x ;; z" := (bind x (fun _ => z))
  (at level 100, z at level 200, only parsing, right associativity) : js_scope.
Open Scope js_scope.

(** Run a computation on a component of a larger state. *)
Definition zoom {S T A} (get : S -> T) (set : T -> S -> S) (m : M T A) : M S A :=
  fun s => let '(o, t) := m (get s) in (o, set t s).

(* ================================================================= *)
(** ** The express [Response] object *)

Record Response := mkResponse {
  headers : list (string * string);
  statusCode : nat;
  headersSent : bool;
  chunks : list string;              (* what was written, in order *)
  ended : bool;
  writeFaults : list (option JsValue); (* Some e: that write call throws e *)
  endFault : option JsValue            (* Some e: end() throws e *)
}.

Definition freshResponse : Response :=
  mkResponse [] 200 false [] false [] None.

Definition ERR_HTTP_HEADERS_SENT : JsValue :=
  JsError "Cannot set headers after they are sent to the client".

Fixpoint setEntry {V} (k : string) (v : V) (l : list (string * V)) : list (string * V) :=
  match l with
  | [] => [(k, v)]
  | (k', v') :: l' =>
      if String.eqb k k' then (k, v) :: l' else (k', v') :: setEntry k v l'
  end.

Fixpoint getEntry {V} (k : string) (l : list (string * V)) : option V :=
  match l with
  | [] => None
  | (k', v') :: l' => if String.eqb k k' then Some v' else getEntry k l'
  end.

Fixpoint deleteEntry {V} (k : string) (l : list (string * V)) : list (string * V) :=
  match l with
  | [] => []
  | (k', v') :: l' =>
      if String.eqb k k' then l' else (k', v') :: deleteEntry k l'
  end.

Definition hasEntry {V} (k : string) (l : list (string * V)) : bool :=
  match getEntry k l with Some _ => true | None => false end.

Module Res.

Definition setHeader (name value : string) : M Response unit := fun r =>
  if headersSent r then (Throw ERR_HTTP_HEADERS_SENT, r)
  else (Return tt,
        mkResponse (setEntry name value (headers r)) (statusCode r) (headersSent r)
                   (chunks r) (ended r) (writeFaults r) (endFault r)).

Definition status (code : nat) : M Response unit := fun r =>
  (Return tt,
   mkResponse (headers r) code (headersSent r) (chunks r) (ended r)
              (writeFaults r) (endFault r)).

(** [response.write(chunk)]: the head of the fault plan decides whether
    this call throws; an accepted chunk is appended to the stream. *)
Definition write (chunk : string) : M Response unit := fun r =>
  match writeFaults r with
  | Some e :: plan =>
      (Throw e,
       mkResponse (headers r) (statusCode r) (headersSent r) (chunks r) (ended r)
                  plan (endFault r))
  | None :: plan =>
      (Return tt,
       mkResponse (headers r) (statusCode r) true (chunks r ++ [chunk]) (ended r)
                  plan (endFault r))
  | [] =>
      (Return tt,
       mkResponse (headers r) (statusCode r) true (chunks r ++ [chunk]) (ended r)
                  [] (endFault r))
  end.

(** [response.end()] *)
Definition end_ : M Response unit := fun r =>
  match endFault r with
  | Some e => (Throw e, r)
  | None =>
      (Return tt,
       mkResponse (headers r) (statusCode r) true (chunks r) true
                  (writeFaults r) (endFault r))
  end.

(** [res.send(text)]: the body is written and the response ended; it
    throws when the headers are already out. *)
Definition send (text : string) : M Response unit := fun r =>
  if headersSent r then (Throw ERR_HTTP_HEADERS_SENT, r)
  else (Return tt,
        mkResponse (headers r) (statusCode r) true (chunks r ++ [text]) true
                   (writeFaults r) (endFault r)).

(** [res.json(value)] *)
Definition json (value : Json) : M Response unit :=
  setHeader "Content-Type" "application/json" ;; send (stringify value).

End Res.

(* ================================================================= *)
(** ** Callbacks, trace and world *)

(** The session table of [SessionStore]: a JavaScript [Map] from session
    id to transport, kept in insertion order. A transport is named by its
    reference into the heap. *)
Definition Sessions := list (string * nat).

(** An owner-supplied callback: it may update the session store and it
    either returns ([None]) or throws ([Some e]). *)
Definition Callback (A : Type) : Type := A -> Sessions -> option JsValue * Sessions.

Inductive CallbackCall :=
| OnClose
| OnError (error : JsValue)
| OnMessage (message : JSONRPCMessage).

Inductive Event :=
| Console (text : string) (arg : option JsValue)   (* console.error(text, arg) *)
| Called (sid : string) (call : CallbackCall).      (* transport sid ran a callback *)

Record World := mkWorld {
  sessions : Sessions;
  trace : list Event;
  res : Response        (* the response object of the HTTP request being served *)
}.

Definition setSessions (ss : Sessions) (w : World) : World :=
  mkWorld ss (trace w) (res w).
Definition setRes (r : Response) (w : World) : World :=
  mkWorld (sessions w) (trace w) r.
Definition emit (e : Event) (w : World) : World :=
  mkWorld (sessions w) (trace w ++ [e]) (res w).

Definition console_error (text : string) (arg : option JsValue) : M World unit :=
  fun w => (Return tt, emit (Console text arg) w).

(** Call [cb(a)] on behalf of transport [sid] when it is registered. *)
Definition invokeCallback {A} (sid : string) (cb : option (Callback A))
    (call : CallbackCall) (a : A) : M World unit := fun w =>
  match cb with
  | None => (Return tt, w)
  | Some f =>
      let '(thrown, ss) := f a (sessions w) in
      (match thrown with None => Return tt | Some e => Throw e end,
       emit (Called sid call) (setSessions ss w))
  end.

(* ================================================================= *)
(** ** [SSEServerTransport] (src/server/sse.ts) *)

Record SSEServerTransport := mkTransport {
  sessionId : string;
  messageEndpoint : string;
  response : Response;
  closed : bool;
  onclose : option (Callback unit);
  onerror : option (Callback JsValue);
  onmessage : option (Callback JSONRPCMessage)
}.

Definition setResponse (r : Response) (t : SSEServerTransport) : SSEServerTransport :=
  mkTransport (sessionId t) (messageEndpoint t) r (closed t)
              (onclose t) (onerror t) (onmessage t).
Definition setClosed (b : bool) (t : SSEServerTransport) : SSEServerTransport :=
  mkTransport (sessionId t) (messageEndpoint t) (response t) b
              (onclose t) (onerror t) (onmessage t).
Definition setOnclose (f : option (Callback unit)) (t : SSEServerTransport) :=
  mkTransport (sessionId t) (messageEndpoint t) (response t) (closed t)
              f (onerror t) (onmessage t).
Definition setOnerror (f : option (Callback JsValue)) (t : SSEServerTransport) :=
  mkTransport (sessionId t) (messageEndpoint t) (response t) (closed t)
              (onclose t) f (onmessage t).
Definition setOnmessage (f : option (Callback JSONRPCMessage)) (t : SSEServerTransport) :=
  mkTransport (sessionId t) (messageEndpoint t) (response t) (closed t)
              (onclose t) (onerror t) f.

(** The state a method of the transport runs in: the receiver and the
    world around it. *)
Record TState := mkTState { self : SSEServerTransport; world : World }.

Definition TM (A : Type) : Type := M TState A.

Definition inWorld {A} (m : M World A) : TM A :=
  zoom world (fun w s => mkTState (self s) w) m.
Definition inSink {A} (m : M Response A) : TM A :=
  zoom (fun s => response (self s))
       (fun r s => mkTState (setResponse r (self s)) (world s)) m.
Definition inRes {A} (m : M Response A) : M World A :=
  zoom res setRes m.

Definition this : TM SSEServerTransport := fun s => (Return (self s), s).
Definition assignClosed (b : bool) : TM unit :=
  fun s => (Return tt, mkTState (setClosed b (self s)) (world s)).

(** [if (this.cb) this.cb(a)] *)
Definition fire {A} (field : SSEServerTransport -> option (Callback A))
    (call : CallbackCall) (a : A) : TM unit :=
  t ← this; inWorld (invokeCallback (sessionId t) (field t) call a).

(** [if (this.onerror && error instanceof Error) this.onerror(error)] *)
Definition reportError (error : JsValue) : TM unit :=
  if instanceofError error then fire onerror (OnError error) error else ret tt.

Definition TransportClosed : JsValue := JsError "Transport is closed".

(** [new SSEServerTransport(messageEndpoint, response)]; [uuid] is the
    value [uuidv4()] returns. The four [setHeader] calls throw when the
    response has already sent its headers. *)
Definition construct (uuid messageEndpoint : string) (response : Response)
  : Outcome SSEServerTransport :=
  match (Res.setHeader "Content-Type" "text/event-stream" ;;
         Res.setHeader "Cache-Control" "no-cache" ;;
         Res.setHeader "Connection" "keep-alive" ;;
         Res.setHeader "X-Accel-Buffering" "no") response with
  | (Return _, r) => Return (mkTransport uuid messageEndpoint r false None None None)
  | (Throw e, _) => Throw e
  end.

(** The listener installed by [this.response.on('close', ...)]: it runs
    when the underlying connection is gone. *)
Definition onResponseClose : TM unit :=
  t ← this;
  if negb (closed t) then
    assignClosed true ;;
    fire onclose OnClose tt
  else ret tt.

(** [sendEvent] and [close] call each other. [sendEvent_with close_] is the
    body of [sendEvent] with the [close] it calls passed in;
    [this.close().catch(console.error)] runs that [close] and logs a
    rejection instead of propagating it (the log line of the handler is
    recorded where the call is made, not a microtask later). *)
Definition sendEvent_with (close_ : TM unit) (event data : string) : TM unit :=
  try_catch
    (inSink (Res.write ("event: " +:+ event +:+ LF)) ;;
     inSink (Res.write ("data: " +:+ data +:+ LF +:+ LF)))
    (fun error =>
       inWorld (console_error "Error sending SSE event:" (Some error)) ;;
       reportError error ;;
       try_catch close_ (fun err => inWorld (console_error "" (Some err)))).

Definition closeData : string :=
  stringify (JObj [("reason", JStr "Server closing connection")]).

Definition RecursionBudget : JsValue := JsError "recursion budget exhausted".

(** [close], unrolled [fuel] levels deep. *)
Fixpoint close_fuel (fuel : nat) : TM unit :=
  match fuel with
  | O => throw RecursionBudget
  | S fuel' =>
      t ← this;
      if negb (closed t) then
        assignClosed true ;;
        try_catch
          (sendEvent_with (close_fuel fuel') "close" closeData ;;
           inSink Res.end_)
          (fun error =>
             inWorld (console_error "Error closing SSE transport:" (Some error)) ;;
             reportError error) ;;
        fire onclose OnClose tt
      else ret tt
  end.

(** Two levels are all the recursion ever needs: the [close] reached from
    inside [close] finds the flag set ([close_fuel_stable] below). *)
Definition close : TM unit := close_fuel 2.

Definition sendEvent (event data : string) : TM unit :=
  sendEvent_with close event data.

Definition endpointData (t : SSEServerTransport) : string :=
  stringify (JObj [("endpoint", JStr (messageEndpoint t +:+ "?sessionId=" +:+ sessionId t))]).

Definition start : TM unit :=
  t ← this;
  if closed t then throw TransportClosed
  else sendEvent "endpoint" (endpointData t).

Definition send (message : JSONRPCMessage) : TM unit :=
  t ← this;
  if closed t then throw TransportClosed
  else sendEvent "message" (stringify message).

Definition ackBody : Json := JObj [("success", JBool true)].
Definition serverErrorBody : Json :=
  JObj [("error", JObj [("code", JNum (-32000)); ("message", JStr "Server error")])].

(** [handlePostMessage(req, res, message)]; [res] is the response of the
    request being served, held in the world. *)
Definition handlePostMessage (message : JSONRPCMessage) : TM unit :=
  t ← this;
  if closed t then throw TransportClosed
  else
    try_catch
      (fire onmessage (OnMessage message) message ;;
       inWorld (inRes (Res.status 200 ;; Res.json ackBody)))
      (fun error =>
         inWorld (console_error "Error handling message:" (Some error)) ;;
         reportError error ;;
         inWorld (inRes (Res.status 500 ;; Res.json serverErrorBody))).

(* ================================================================= *)
(** ** [SessionStore] (src/server/session-store.ts) and the router *)

(** The process state: the transports that exist (a reference is an index
    into [heap]) and the world. *)
Record System := mkSystem { heap : list SSEServerTransport; sworld : World }.

Definition SM (A : Type) : Type := M System A.

Definition inWorldS {A} (m : M World A) : SM A :=
  zoom sworld (fun w s => mkSystem (heap s) w) m.

Definition DanglingReference : JsValue := JsError "TypeError: receiver is undefined".

(** Call a method on the transport behind reference [r]. *)
Definition invoke {A} (r : nat) (m : TM A) : SM A := fun s =>
  match heap s !! r with
  | None => (Throw DanglingReference, s)
  | Some t =>
      let '(o, ts) := m (mkTState t (sworld s)) in
      (o, mkSystem (<[r := self ts]> (heap s)) (world ts))
  end.

Module SessionStore.

(** [registerSession(transport)] *)
Definition registerSession (transport : nat) : SM unit :=
  sid ← invoke transport (t ← this; ret (sessionId t));
  inWorldS (fun w => (Return tt, setSessions (setEntry sid transport (sessions w)) w)) ;;
  inWorldS (console_error ("세션 등록됨: " +:+ sid) None).

(** [getSession(sessionId)] *)
Definition getSession (sid : string) : SM (option nat) :=
  inWorldS (fun w => (Return (getEntry sid (sessions w)), w)).

(** [removeSession(sessionId)] *)
Definition removeSession (sid : string) : SM bool :=
  inWorldS (console_error ("세션 제거됨: " +:+ sid) None) ;;
  inWorldS (fun w => (Return (hasEntry sid (sessions w)),
                      setSessions (deleteEntry sid (sessions w)) w)).

(** [sessionCount] *)
Definition sessionCount : SM nat :=
  inWorldS (fun w => (Return (length (sessions w)), w)).

(** [err.message] inside a template literal: reading a property of
    [null]/[undefined] throws a [TypeError]. *)
Definition messageOf (err : JsValue) : Outcome string :=
  match err with
  | JsError m => Return m
  | JsString _ => Return "undefined"
  | JsNullish => Throw (JsError "TypeError: Cannot read properties of undefined (reading 'message')")
  end.

(** [transport.close().catch(err => console.error(...))]: the call made
    by [map]; it yields the settled promise of [close]. *)
Definition startClose (transport : nat) : SM (Outcome unit) := fun s =>
  let '(o, s') := invoke transport close s in (Return o, s').

(** The [catch] handler attached to one close promise. *)
Definition settleClose (p : Outcome unit) : SM unit :=
  match p with
  | Return _ => ret tt
  | Throw err =>
      match messageOf err with
      | Return m => inWorldS (console_error ("세션 종료 오류: " +:+ m) None)
      | Throw e => throw e
      end
  end.

Fixpoint mapM {A B} (f : A -> SM B) (l : list A) : SM (list B) :=
  match l with
  | [] => ret []
  | a :: l' => b ← f a; bs ← mapM f l'; ret (b :: bs)
  end.

(** [await Promise.all(promises)]: every handler runs; the result is
    rejected with the first rejection in order. *)
Fixpoint awaitAll (ps : list (Outcome unit)) : SM unit :=
  match ps with
  | [] => ret tt
  | p :: ps' => fun s =>
      match settleClose p s with
      | (Return _, s') => awaitAll ps' s'
      | (Throw e, s') => let '(_, s'') := awaitAll ps' s' in (Throw e, s'')
      end
  end.

(** [closeAllSessions()] *)
Definition closeAllSessions : SM unit :=
  n ← sessionCount;
  inWorldS (console_error (NilZero.string_of_uint (Nat.to_uint n) +:+ "개의 활성 세션 종료 중...") None) ;;
  snapshot ← inWorldS (fun w => (Return (map snd (sessions w)), w));
  closePromises ← mapM startClose snapshot;
  awaitAll closePromises ;;
  inWorldS (fun w => (Return tt, setSessions [] w)) ;;
  inWorldS (console_error "모든 세션이 종료됨" None).

End SessionStore.

(** [app.post('/messages', ...)]. [query] is [req.query.sessionId],
    [body] is [req.body]; the response object is [res] of the world. *)
Definition postMessages (query : option string) (body : Json) : SM unit :=
  inWorldS (console_error "POST 요청 수신: /messages" None) ;;
  match query with
  | None | Some EmptyString =>
      inWorldS (console_error "요청 URL에 세션 ID가 제공되지 않음" None) ;;
      inWorldS (inRes (Res.status 400 ;; Res.send "sessionId 파라미터 누락"))
  | Some sid =>
      found ← SessionStore.getSession sid;
      match found with
      | None =>
          inWorldS (console_error ("세션 ID에 대한 활성 트랜스포트 없음: " +:+ sid) None) ;;
          inWorldS (inRes (Res.status 404 ;; Res.send "세션을 찾을 수 없음"))
      | Some transport =>
          try_catch
            (invoke transport (handlePostMessage body))
            (fun error =>
               inWorldS (console_error "메시지 처리 오류:" (Some error)) ;;
               sent ← inWorldS (inRes (fun r => (Return (headersSent r), r)));
               if negb sent
               then inWorldS (inRes (Res.status 500 ;; Res.send "메시지 처리 오류"))
               else ret tt)
      end
  end.

(* ================================================================= *)
(** ** Operations on one transport, as its owner and the host issue them *)

Inductive Op :=
| OpStart
| OpSend (message : JSONRPCMessage)
| OpClose
| OpDisconnect                          (* the response emits 'close' *)
| OpPost (message : JSONRPCMessage)     (* a POST for this session is routed here *)
| OpSetOnclose (f : option (Callback unit))
| OpSetOnerror (f : option (Callback JsValue))
| OpSetOnmessage (f : option (Callback JSONRPCMessage)).

Definition assign (f : SSEServerTransport -> SSEServerTransport) : TM unit :=
  fun s => (Return tt, mkTState (f (self s)) (world s)).

(** Every POST comes with a response object of its own. *)
Definition newRequest : TM unit :=
  fun s => (Return tt, mkTState (self s) (setRes freshResponse (world s))).

Definition step (op : Op) : TM unit :=
  match op with
  | OpStart => start
  | OpSend m => send m
  | OpClose => close
  | OpDisconnect => onResponseClose
  | OpPost m => newRequest ;; handlePostMessage m
  | OpSetOnclose f => assign (setOnclose f)
  | OpSetOnerror f => assign (setOnerror f)
  | OpSetOnmessage f => assign (setOnmessage f)
  end.

(** Run the operations in order; a rejected call does not stop the ones
    after it. *)
Fixpoint runOps (ops : list Op) (s : TState) : TState :=
  match ops with
  | [] => s
  | op :: ops' => runOps ops' (snd (step op s))
  end.

(** How often the lifecycle callback [onclose] has run. *)
Definition isCloseCall (e : Event) : bool :=
  match e with Called _ OnClose => true | _ => false end.

Fixpoint closeCalls (tr : list Event) : nat :=
  match tr with
  | [] => 0
  | e :: tr' => (if isCloseCall e then 1 else 0) + closeCalls tr'
  end.

(** The number of [onclose] calls made so far, plus one credit while
    the transport is still open. *)
Definition potential (s : TState) : nat :=
  closeCalls (trace (world s)) + (if closed (self s) then 0 else 1).

(** A callback that returns normally on every input. *)
Definition returns {A} (cb : option (Callback A)) : Prop :=
  forall f a ss, cb = Some f -> fst (f a ss) = None.

(** A callback that never throws [null]/[undefined]. *)
Definition throwsNoNullish {A} (cb : option (Callback A)) : Prop :=
  forall f a ss, cb = Some f -> fst (f a ss) <> Some JsNullish.

(** The error with which writing one envelope (two [write] calls) fails,
    if it does. *)
Definition writeFailure (r : Response) : option JsValue :=
  match writeFaults r with
  | Some e :: _ => Some e
  | None :: Some e :: _ => Some e
  | _ => None
  end.

(* ================================================================= *)
(** ** Symbolic execution *)

#[local] Arguments String.append : simpl never.
#[local] Arguments stringify : simpl never.
#[local] Arguments closeData : simpl never.
#[local] Arguments endpointData : simpl never.
#[local] Arguments close : simpl never.

Ltac unfold_js :=
  unfold step, newRequest, assign, start, send, handlePostMessage, onResponseClose,
    sendEvent, sendEvent_with, reportError, fire, assignClosed, this,
    inWorld, inSink, inRes, invokeCallback, console_error, zoom, try_catch,
    Res.json, Res.write, Res.end_, Res.send, Res.status, Res.setHeader,
    bind, ret, throw in *.

Ltac unfold_close := unfold close, close_fuel.

(** One case split of the execution: on a field of the state, on the
    kind of a thrown value, or on what a callback returns. *)
Ltac break_step :=
  match goal with
  | |- context [match ?x with _ => _ end] => is_var x; destruct x
  | |- context [if ?x then _ else _] => is_var x; destruct x
  | |- context [negb ?x] => is_var x; destruct x
  | |- context [instanceofError ?x] => is_var x; destruct x
  | |- context [match ?f ?a ?b with _ => _ end] => is_var f; destruct (f a b) eqn:?
  | |- context [let '(_, _) := ?f ?a ?b in _] => is_var f; destruct (f a b) eqn:?
  end.

Ltac run := repeat (cbn; try break_step).

(** The same, with [close] kept as a unit: where the execution reaches a
    call of [close], the fact [lem] about that call is brought in. *)
Ltac break_close lem :=
  match goal with
  | |- context [close ?s] =>
      generalize (lem s); destruct (close s) as [[[]|?e] [?t ?w]]; cbn; intro
  end.

Ltac run_with lem := repeat (cbn; first [break_step | break_close lem | idtac]);
                     repeat (cbn; try break_step).

Ltac open_state s :=
  destruct s as [[?sid ?ep [?hs ?st ?sent ?ch ?en ?plan ?ef] ?cl ?oc ?oe ?om]
                   [?ss ?tr [?hs ?st ?sent ?ch ?en ?plan ?ef]]].


(* ================================================================= *)
(** ** Concrete transports used in examples *)

Definition sseHeaders : list (string * string) :=
  [("Content-Type", "text/event-stream"); ("Cache-Control", "no-cache");
   ("Connection", "keep-alive"); ("X-Accel-Buffering", "no")].

(** A sink whose coming [write] calls behave as [plan] says. *)
Definition sinkWith (plan : list (option JsValue)) (ef : option JsValue) : Response :=
  mkResponse sseHeaders 200 false [] false plan ef.

Definition demoTransport : SSEServerTransport :=
  mkTransport "s-1" "/messages" (sinkWith [] None) false None None None.

Definition idleWorld : World := mkWorld [] [] freshResponse.

Definition demoState : TState := mkTState demoTransport idleWorld.

Definition EPIPE : JsValue := JsError "write EPIPE".

(** A transport whose first [write] fails. *)
Definition brokenPipeState : TState :=
  mkTState (setResponse (sinkWith [Some EPIPE] None) demoTransport) idleWorld.

(** Callbacks that return, and callbacks that throw. *)
Definition politeListener {A} : Callback A := fun _ ss => (None, ss).

(** A listener that takes an id out of the session table and returns. *)
Definition dropsEntry {A} (sid : string) : Callback A := fun _ ss =>
  (None, deleteEntry sid ss).
Definition rudeListener {A} (e : JsValue) : Callback A := fun _ ss => (Some e, ss).

Definition closeFrame : list string :=
  ["event: close" +:+ LF; "data: " +:+ closeData +:+ LF +:+ LF].

(** A transport whose sink fails on every step of the close sequence and
    that has well-behaved listeners. *)
Definition failingSinkState : TState :=
  mkTState
    (setOnerror (Some politeListener)
       (setOnclose (Some politeListener)
          (setResponse (sinkWith [None; Some EPIPE] (Some (JsError "end failed")))
                       demoTransport)))
    idleWorld.

(** A transport whose [onclose] listener throws. *)
Definition rudeCloseState : TState :=
  mkTState (setOnclose (Some (rudeListener (JsError "listener failed"))) demoTransport)
           idleWorld.

(** The sink after it has accepted the chunks [cs]. *)
Definition accepted (cs : list string) (r : Response) : Response :=
  mkResponse (headers r) (statusCode r) true (chunks r ++ cs)%list (ended r)
             (drop (length cs) (writeFaults r)) (endFault r).

Definition endpointFrame (t : SSEServerTransport) : list string :=
  ["event: endpoint" +:+ LF; "data: " +:+ endpointData t +:+ LF +:+ LF].

Definition messageFrame (m : JSONRPCMessage) : list string :=
  ["event: message" +:+ LF; "data: " +:+ stringify m +:+ LF +:+ LF].

(** The part of an envelope that reached the sink before the failing
    [write]: its event line when the second call is the one that fails. *)
Definition writtenBeforeFailure (event : string) (r : Response) : list string :=
  match writeFaults r with
  | None :: Some _ :: _ => ["event: " +:+ event +:+ LF]
  | _ => []
  end.

(** The [onerror] call that reports [e], when there is one. *)
Definition reported (t : SSEServerTransport) (e : JsValue) : list Event :=
  match onerror t with
  | Some _ => if instanceofError e then [Called (sessionId t) (OnError e)] else []
  | None => []
  end.

(** A transport with a broken pipe and a registered [onerror]. *)
Definition watchedBrokenPipeState : TState :=
  mkTState (setOnerror (Some politeListener) (self brokenPipeState)) idleWorld.

(** An [onmessage] that rejects the message [null] and takes any other. *)
Definition pickyListener : Callback JSONRPCMessage := fun m ss =>
  (match m with JNull => Some (JsError "bad request") | _ => None end, ss).

Definition pickyState : TState :=
  mkTState (setOnerror (Some politeListener)
              (setOnmessage (Some pickyListener) demoTransport))
           idleWorld.

(** The same with an [onerror] that throws. *)
Definition pickyRudeTransport : SSEServerTransport :=
  setOnerror (Some (rudeListener (JsError "handler failed")))
    (setOnmessage (Some pickyListener) demoTransport).

Definition pickyRudeSystem : System :=
  mkSystem [pickyRudeTransport] (mkWorld [("s-1", 0)] [] freshResponse).

(* ================================================================= *)
(** ** The wire format, as the specification words it *)

Module Wire.

(** The message envelope: a tagged union of the three kinds. *)
Inductive Envelope :=
| EndpointEnv (endpoint : string)
| MessageEnv (message : JSONRPCMessage)
| CloseEnv (reason : string).

Definition kindName (e : Envelope) : string :=
  match e with
  | EndpointEnv _ => "endpoint"
  | MessageEnv _ => "message"
  | CloseEnv _ => "close"
  end.

Definition payload (e : Envelope) : Json :=
  match e with
  | EndpointEnv a => JObj [("endpoint", JStr a)]
  | MessageEnv m => m
  | CloseEnv r => JObj [("reason", JStr r)]
  end.

(** An envelope on the wire: the line [event: <kind>], then the line
    [data: <json>], then a blank line. *)
Definition frame (e : Envelope) : list string :=
  ["event: " +:+ kindName e +:+ LF;
   "data: " +:+ stringify (payload e) +:+ LF +:+ LF].

(** The envelopes transport [t] sends: its endpoint envelope carries the
    base path with the session id as query parameter. *)
Definition sentBy (t : SSEServerTransport) (e : Envelope) : Prop :=
  match e with
  | EndpointEnv a => a = messageEndpoint t +:+ "?sessionId=" +:+ sessionId t
  | MessageEnv _ => True
  | CloseEnv r => r = "Server closing connection"
  end.

(** What reaches the sink for one envelope: the whole frame, or only its
    event line when the second [write] failed. *)
Inductive Item :=
| Whole (e : Envelope)
| Aborted (e : Envelope).

Definition envelopeOf (i : Item) : Envelope :=
  match i with Whole e | Aborted e => e end.

Definition isWhole (i : Item) : Prop :=
  match i with Whole _ => True | Aborted _ => False end.

Definition itemChunks (i : Item) : list string :=
  match i with
  | Whole e => frame e
  | Aborted e => ["event: " +:+ kindName e +:+ LF]
  end.

Definition render (items : list Item) : list string := concat (map itemChunks items).

(** The stream of [s'] continues that of [s] by items of the transport;
    on a sink without faults every item is a whole frame and the sink
    stays without faults. *)
Definition framed (s s' : TState) : Prop :=
  exists items,
    chunks (response (self s')) = (chunks (response (self s)) ++ render items)%list /\
    Forall (fun i => sentBy (self s) (envelopeOf i)) items /\
    (writeFaults (response (self s)) = [] ->
     Forall isWhole items /\ writeFaults (response (self s')) = []).

End Wire.

Fixpoint containsLF (s : string) : bool :=
  match s with
  | EmptyString => false
  | String c s' => Nat.eqb (nat_of_ascii c) 10 || containsLF s'
  end.

Definition demoOps : list Op :=
  [OpStart; OpSend (JObj [("type", JStr "ping")]); OpPost (JObj [("foo", JNum 1)]);
   OpClose; OpDisconnect; OpClose].

(** Two transports that were given the same session id. *)
Definition twinSystem : System :=
  mkSystem [demoTransport; setOnclose (Some politeListener) demoTransport]
           (mkWorld [("s-1", 0)] [] freshResponse).

(** The response after [res.status(code).send(text)]. *)
Definition replied (code : nat) (text : string) (r : Response) : Response :=
  mkResponse (headers r) code true (chunks r ++ [text])%list true
             (writeFaults r) (endFault r).

(** A system with one open session. *)
Definition oneSessionSystem : System :=
  mkSystem [setOnmessage (Some pickyListener) demoTransport]
           (mkWorld [("s-1", 0)] [] freshResponse).

(** How the heap may change while transports are being closed: every
    transport keeps its place and its callbacks, and one that was closed
    stays closed. *)
Definition advances (h h' : list SSEServerTransport) : Prop :=
  Forall2 (fun t t' =>
             (closed t = true -> closed t' = true) /\
             onclose t' = onclose t /\ onerror t' = onerror t) h h'.

(** The transports whose callbacks never throw [null]/[undefined]. *)
Definition noNullish (t : SSEServerTransport) : Prop :=
  throwsNoNullish (onclose t) /\ throwsNoNullish (onerror t).

(** Three sessions: a healthy one, one whose sink is broken, and one
    whose [onclose] throws. *)
Definition threeSessions : System :=
  mkSystem
    [setOnclose (Some (dropsEntry "a")) demoTransport;
     setOnclose (Some (dropsEntry "b")) (self failingSinkState);
     self rudeCloseState]
    (mkWorld [("a", 0); ("b", 1); ("c", 2)] [] freshResponse).

(* ================================================================= *)
(** ** Relations between states, and the tactics of the proofs *)

Import Wire.
Open Scope list_scope.

(** Session id, endpoint and flag monotonicity across any operation. *)
Definition sameIdentity (t t' : SSEServerTransport) : Prop :=
  sessionId t' = sessionId t /\ messageEndpoint t' = messageEndpoint t.

(** The trace only grows. *)
Definition grows (s s' : TState) : Prop :=
  exists evs, trace (world s') = trace (world s) ++ evs.

Ltac grows_tac :=
  unfold grows in *; cbn in *;
  repeat match goal with H : exists _, _ |- _ => destruct H as [? ->] end;
  rewrite <- ?app_assoc;
  first [ eexists; reflexivity | exists []; symmetry; apply app_nil_r ].

Ltac callback_contra :=
  match goal with
  | H : returns (Some ?f), E : ?f ?a ?ss = (Some _, _) |- _ =>
      specialize (H f a ss eq_refl); rewrite E in H; discriminate H
  end.

(** [close] writes at most the close envelope, and only that. *)
Definition closeWrites (s s' : TState) : Prop :=
  exists part, part `prefix_of` closeFrame /\
               chunks (response (self s')) = chunks (response (self s)) ++ part.

Ltac closeWrites_tac :=
  unfold closeWrites; cbn;
  first [ exists closeFrame; split; [reflexivity | rewrite <- ?app_assoc; reflexivity]
        | exists (take 1 closeFrame); split; [eexists; reflexivity | reflexivity]
        | exists []; split; [eexists; reflexivity | symmetry; apply app_nil_r] ].

(** The candidates for what one operation adds to the stream. *)
Ltac framed_solve items :=
  exists items; cbn;
  split; [ rewrite <- ?app_assoc; cbn; rewrite ?app_nil_r; reflexivity |];
  split; [ repeat constructor |];
  intros Hplan;
  first [ discriminate Hplan
        | split; [repeat constructor | first [reflexivity | exact Hplan]] ].

Ltac framed_tac e :=
  unfold framed, render; cbn;
  first [ framed_solve (@nil Item)
        | framed_solve [Whole e]
        | framed_solve [Aborted e]
        | framed_solve [Whole (CloseEnv "Server closing connection")]
        | framed_solve [Aborted (CloseEnv "Server closing connection")] ].

(** The same where the execution went through [close]. *)
Ltac framed_after_close_solve items Hc Hv :=
  exists items;
  split; [ rewrite Hc; rewrite <- ?app_assoc; reflexivity |];
  split; [ repeat (constructor; [cbn; reflexivity|]);
           eapply Forall_impl; [exact Hv | intros [[]|[]]; cbn; auto]
         | intros Hplan; discriminate Hplan ].

Ltac framed_after_close e :=
  match goal with
  | H : framed _ _ |- _ =>
      let ic := fresh "ic" in
      let Hc := fresh "Hc" in
      let Hv := fresh "Hv" in
      let Hh := fresh "Hh" in
      destruct H as (ic & Hc & Hv & Hh); unfold framed, render in *; cbn in *;
      first [ framed_after_close_solve ic Hc Hv
            | framed_after_close_solve (Aborted e :: ic) Hc Hv ]
  end.

(** The first log line of the POST handler. *)
Definition postLog : Event := Console "POST 요청 수신: /messages" None.

(** A settled [close()] promise whose rejection handler can log it. *)
Definition settles (p : Outcome unit) : Prop := p <> Throw JsNullish.


(* ================================================================= *)
(** ** Further states used in examples *)

(** A transport whose first [write] fails, with an [onerror] that
    returns; [end()] works. *)
Definition lossyState : TState :=
  mkTState (setOnerror (Some politeListener)
              (setOnclose (Some politeListener)
                 (setResponse (sinkWith [Some EPIPE] None) demoTransport)))
           idleWorld.

(** The same with an [onerror] that throws. *)
Definition lossyRudeState : TState :=
  mkTState (setOnerror (Some (rudeListener (JsError "handler failed")))
              (setResponse (sinkWith [Some EPIPE] None) demoTransport))
           idleWorld.

(** An open transport with a registered [onclose]. *)
Definition listenedState : TState :=
  mkTState (setOnclose (Some politeListener) demoTransport) idleWorld.

(** A closed transport that is still in the table. *)
Definition staleSystem : System :=
  mkSystem [setClosed true demoTransport] (mkWorld [("s-1", 0)] [] freshResponse).

(** The next request arrives with a response object of its own. *)
Definition nextRequest (s : System) : System :=
  mkSystem (heap s) (setRes freshResponse (sworld s)).

(* ================================================================= *)
(** ** The tool registry and the CallTool handler *)

(** A tool as the handlers see it. [execute] runs against the database
    and is taken as given: for the arguments it either yields a result
    or throws. *)
Record BaseTool := mkTool {
  toolName : string;
  toolDescription : string;
  execute : Json -> Outcome Json
}.

Definition ToolRegistry := list (string * BaseTool).

Section Tools.

(** The message of [new McpError(ErrorCode.MethodNotFound, text)] (the
    class comes from the SDK), and [JSON.stringify(value, null, 2)]. *)
Variable mcpErrorText : string -> string.
Variable stringifyPretty : Json -> string.

(** [registerTool(tool)] (its debug log goes to the logger) *)
Definition registerTool (tool : BaseTool) (tools : ToolRegistry) : ToolRegistry :=
  setEntry (toolName tool) tool tools.

(** [getTool(name)] *)
Definition getTool (name : string) (tools : ToolRegistry) : Outcome BaseTool :=
  match getEntry name tools with
  | Some tool => Return tool
  | None => Throw (JsError (mcpErrorText ("Unknown tool: " +:+ name)))
  end.

Definition liftOutcome {S A} (o : Outcome A) : M S A := fun s => (o, s).

(** The error result of the handler. [error.message] is [undefined] on
    a value that is no [Error], which leaves the field out of the JSON
    text, and reading it from [null]/[undefined] throws. *)
Definition errorResult (error : JsValue) : Outcome Json :=
  match error with
  | JsError m =>
      Return (JObj [("toolResult",
                     JObj [("content", JArr [JObj [("type", JStr "text"); ("text", JStr m)]]);
                           ("isError", JBool true)])])
  | JsString _ =>
      Return (JObj [("toolResult",
                     JObj [("content", JArr [JObj [("type", JStr "text")]]);
                           ("isError", JBool true)])])
  | JsNullish =>
      Throw (JsError "TypeError: Cannot read properties of undefined (reading 'message')")
  end.

(** The handler of [CallToolRequestSchema]: [name] is
    [request.params.name], [arguments] is [request.params.arguments].
    (A tool found by [getTool] is an object, so the test [!tool] that
    follows the lookup in the source never fires.) *)
Definition callTool (tools : ToolRegistry) (name : string) (arguments : option Json)
  : M World Json :=
  let args := match arguments with
              | None | Some JNull => JObj []
              | Some a => a
              end in
  try_catch
    (console_error ("도구 실행: " +:+ name) None ;;
     console_error ("인자: " +:+ stringifyPretty args) None ;;
     tool ← liftOutcome (getTool name tools);
     result ← liftOutcome (execute tool args);
     ret (JObj [("toolResult", result)]))
    (fun error =>
       console_error "작업 실패:" (Some error) ;;
       liftOutcome (errorResult error)).

End Tools.

(** A tool that echoes its arguments and one that always fails. *)
Definition echoTool : BaseTool := mkTool "echo" "returns its arguments" (fun a => Return a).
Definition failingTool : BaseTool :=
  mkTool "fail" "always fails" (fun _ => Throw (JsError "connection lost")).

(* ================================================================= *)
(** ** The catch block of [sendEvent], step by step *)

(** The sink after the [write] of an envelope has thrown: the fault is
    consumed, and the event line is on the stream when it was the second
    call that failed. *)
Definition failedSink (event : string) (r : Response) : Response :=
  match writeFaults r with
  | Some _ :: plan =>
      mkResponse (headers r) (statusCode r) (headersSent r) (chunks r) (ended r)
                 plan (endFault r)
  | None :: Some _ :: plan =>
      mkResponse (headers r) (statusCode r) true
                 (chunks r ++ ["event: " +:+ event +:+ LF])%list (ended r)
                 plan (endFault r)
  | _ => r
  end.

(** The state in which the catch block reaches [this.close()]: the
    failure [e] has been logged and reported to [onerror]. *)
Definition afterWriteFailure (event : string) (e : JsValue) (s : TState) : TState :=
  snd ((inWorld (console_error "Error sending SSE event:" (Some e)) ;; reportError e)
         (mkTState (setResponse (failedSink event (response (self s))) (self s))
                   (world s))).

(** [this.close().catch(console.error)] *)
Definition closeQuietly : TM unit :=
  try_catch close (fun err => inWorld (console_error "" (Some err))).

(** Two sessions; the [onclose] of the first throws [undefined]. *)
Definition secondTransport : SSEServerTransport :=
  mkTransport "s-2" "/messages" (sinkWith [] None) false None None None.

Definition undefinedThrowSystem : System :=
  mkSystem [setOnclose (Some (rudeListener JsNullish)) demoTransport; secondTransport]
           (mkWorld [("s-1", 0); ("s-2", 1)] [] freshResponse).
(* ================================================================= *)
(** ** The recursion between [close] and [sendEvent] *)

Lemma close_when_closed n s :
  closed (self s) = true -> close_fuel (S n) s = (Return tt, s).
Proof. intros H. cbn [close_fuel]. unfold bind, this. rewrite H. reflexivity. Qed.

(** More fuel changes nothing: [close] is the limit of its unrollings. *)
Lemma close_fuel_stable n s : close_fuel (S (S n)) s = close_fuel 2 s.
Proof.
  open_state s. destruct cl.
  - rewrite !close_when_closed; reflexivity.
  - change (close_fuel (S (S n))) with
      (t ← this;
       if negb (closed t) then
         assignClosed true ;;
         try_catch
           (sendEvent_with (close_fuel (S n)) "close" closeData ;; inSink Res.end_)
           (fun error =>
              inWorld (console_error "Error closing SSE transport:" (Some error)) ;;
              reportError error) ;;
         fire onclose OnClose tt
       else ret tt).
    change (close_fuel 2) with
      (t ← this;
       if negb (closed t) then
         assignClosed true ;;
         try_catch
           (sendEvent_with (close_fuel 1) "close" closeData ;; inSink Res.end_)
           (fun error =>
              inWorld (console_error "Error closing SSE transport:" (Some error)) ;;
              reportError error) ;;
         fire onclose OnClose tt
       else ret tt).
    unfold_js. run; reflexivity.
Qed.

Lemma close_closed s : closed (self s) = true -> close s = (Return tt, s).
Proof. apply close_when_closed. Qed.

(* ================================================================= *)
(** ** What the operations leave alone *)

Lemma closeCalls_app tr1 tr2 :
  closeCalls (tr1 ++ tr2) = closeCalls tr1 + closeCalls tr2.
Proof. induction tr1 as [|e tr1 IH]; cbn; [reflexivity | rewrite IH; lia]. Qed.

(** [close] changes nothing of the transport but the sink and the flag,
    and it leaves the flag set whatever the sink and the callbacks do. *)
Lemma close_shape s :
  self (snd (close s)) =
  setClosed true (setResponse (response (self (snd (close s)))) (self s)).
Proof. open_state s. unfold_close. unfold_js. run; reflexivity. Qed.

Lemma close_sets_closed s : closed (self (snd (close s))) = true.
Proof. rewrite close_shape. reflexivity. Qed.

Lemma onResponseClose_sets_closed s : closed (self (snd (onResponseClose s))) = true.
Proof. open_state s. unfold_js. run; reflexivity. Qed.

Lemma close_identity s : sameIdentity (self s) (self (snd (close s))).
Proof. rewrite close_shape. split; reflexivity. Qed.

Lemma step_identity op s : sameIdentity (self s) (self (snd (step op s))).
Proof.
  open_state s. unfold sameIdentity.
  destruct op; unfold_js; run_with close_identity; unfold sameIdentity in *; cbn in *;
    intuition congruence.
Qed.

(** Once set, the closed flag stays set. *)
Lemma step_closed_stays op s :
  closed (self s) = true -> closed (self (snd (step op s))) = true.
Proof.
  open_state s. cbn. intros ->.
  destruct op; unfold_js; try rewrite close_closed by reflexivity; run; reflexivity.
Qed.

Lemma runOps_closed_stays ops s :
  closed (self s) = true -> closed (self (runOps ops s)) = true.
Proof.
  revert s. induction ops as [|op ops IH]; intros s H; cbn; [exact H|].
  apply IH, step_closed_stays, H.
Qed.

Lemma runOps_identity ops s : sameIdentity (self s) (self (runOps ops s)).
Proof.
  revert s. induction ops as [|op ops IH]; intros s; cbn; [split; reflexivity|].
  destruct (IH (snd (step op s))) as [E1 E2], (step_identity op s) as [E3 E4].
  split; congruence.
Qed.

Lemma runOps_app ops1 ops2 s :
  runOps (ops1 ++ ops2) s = runOps ops2 (runOps ops1 s).
Proof. revert s. induction ops1 as [|op ops1 IH]; intros s; cbn; [reflexivity | apply IH]. Qed.

(** The number of [onclose] calls made so far plus one credit while the
    transport is open never grows. *)
Lemma close_potential s : potential (snd (close s)) <= potential s.
Proof.
  open_state s. unfold potential. unfold_close. unfold_js.
  run; rewrite ?closeCalls_app; cbn; lia.
Qed.

Lemma step_potential op s : potential (snd (step op s)) <= potential s.
Proof.
  open_state s. unfold potential.
  destruct op; unfold_js; run_with close_potential; unfold potential in *; cbn in *;
    rewrite ?closeCalls_app in *; cbn in *; lia.
Qed.

Lemma runOps_potential ops s : potential (runOps ops s) <= potential s.
Proof.
  revert s. induction ops as [|op ops IH]; intros s; cbn; [lia|].
  etransitivity; [apply IH | apply step_potential].
Qed.

Lemma close_grows s : grows s (snd (close s)).
Proof. open_state s. unfold_close. unfold_js. run; grows_tac. Qed.

Lemma step_grows op s : grows s (snd (step op s)).
Proof. open_state s. destruct op; unfold_js; run_with close_grows; grows_tac. Qed.

Lemma runOps_grows ops s : grows s (runOps ops s).
Proof.
  revert s. induction ops as [|op ops IH]; intros s; cbn; [exists []; symmetry; apply app_nil_r|].
  destruct (IH (snd (step op s))) as [evs2 E2], (step_grows op s) as [evs1 E1].
  exists (evs1 ++ evs2). rewrite E2, E1, app_assoc. reflexivity.
Qed.

(* ================================================================= *)
(** ** A closed transport *)

Lemma closed_start s :
  closed (self s) = true -> start s = (Throw TransportClosed, s).
Proof. intros H. unfold start, bind, this, throw. rewrite H. reflexivity. Qed.

Lemma closed_send m s :
  closed (self s) = true -> send m s = (Throw TransportClosed, s).
Proof. intros H. unfold send, bind, this, throw. rewrite H. reflexivity. Qed.

Lemma closed_handlePostMessage m s :
  closed (self s) = true -> handlePostMessage m s = (Throw TransportClosed, s).
Proof. intros H. unfold handlePostMessage, bind, this, throw. rewrite H. reflexivity. Qed.

Lemma closed_onResponseClose s :
  closed (self s) = true -> onResponseClose s = (Return tt, s).
Proof. intros H. unfold onResponseClose, bind, this, ret. rewrite H. reflexivity. Qed.

(** C4. After the close sequence has run, by [close()] or by the
    disconnect listener, and whatever is done to the transport after
    that, [send] and [handlePostMessage] are rejected with the error
    "Transport is closed" and change nothing. *)
Theorem closed_transport_rejects :
  (forall s ops m,
      let s1 := runOps ops (snd (close s)) in
      send m s1 = (Throw TransportClosed, s1) /\
      handlePostMessage m s1 = (Throw TransportClosed, s1)) /\
  (forall s ops m,
      let s1 := runOps ops (snd (onResponseClose s)) in
      send m s1 = (Throw TransportClosed, s1) /\
      handlePostMessage m s1 = (Throw TransportClosed, s1)).
Proof.
  split; intros s ops m s1.
  - assert (closed (self s1) = true)
      by apply runOps_closed_stays, close_sets_closed.
    split; [apply closed_send | apply closed_handlePostMessage]; assumption.
  - assert (closed (self s1) = true)
      by apply runOps_closed_stays, onResponseClose_sets_closed.
    split; [apply closed_send | apply closed_handlePostMessage]; assumption.
Qed.

(* ================================================================= *)
(** ** [close] *)






(* ================================================================= *)
(** ** Disconnect *)

(** What the disconnect listener does to an open transport: it sets the
    flag and calls [onclose]; the sink is not written to and not ended. *)
Lemma onResponseClose_open s :
  closed (self s) = false ->
  snd (onResponseClose s) =
  mkTState (setClosed true (self s))
           (snd (invokeCallback (sessionId (self s)) (onclose (self s)) OnClose tt (world s))).
Proof.
  open_state s. cbn. intros ->. unfold_js. run; reflexivity.
Qed.

Lemma closeCalls_grows s s' :
  grows s s' -> closeCalls (trace (world s)) <= closeCalls (trace (world s')).
Proof. intros [evs ->]. rewrite closeCalls_app. lia. Qed.

Lemma onResponseClose_calls_onclose s f :
  closed (self s) = false -> onclose (self s) = Some f ->
  closeCalls (trace (world (snd (onResponseClose s)))) = closeCalls (trace (world s)) + 1.
Proof.
  open_state s. cbn. intros -> ->. unfold_js. run; rewrite closeCalls_app; cbn; lia.
Qed.

Lemma close_calls_onclose s f :
  closed (self s) = false -> onclose (self s) = Some f -> returns (onerror (self s)) ->
  closeCalls (trace (world (snd (close s)))) = closeCalls (trace (world s)) + 1.
Proof.
  open_state s. cbn. intros -> -> Herr. unfold_close. unfold_js.
  run; rewrite ?closeCalls_app; cbn; try lia; callback_contra.
Qed.

(** C5, as the code has it. The disconnect listener closes an open
    transport by setting the flag and calling [onclose], without writing
    a close envelope and without ending the sink. On a closed transport
    both the listener and [close()] do nothing, so whichever comes first
    performs the closing. Over any sequence of operations [onclose] runs
    at most once, and not at all when the transport was closed before;
    it runs exactly once when the disconnect (or a [close()] whose
    [onerror] returns) finds the transport open with [onclose]
    registered. *)
Theorem disconnect_closes_once s :
  (closed (self s) = false ->
   snd (onResponseClose s) =
   mkTState (setClosed true (self s))
            (snd (invokeCallback (sessionId (self s)) (onclose (self s)) OnClose tt
                                 (world s)))) /\
  (closed (self s) = true ->
   onResponseClose s = (Return tt, s) /\ close s = (Return tt, s)) /\
  (forall ops,
      closeCalls (trace (world s)) <= closeCalls (trace (world (runOps ops s))) /\
      closeCalls (trace (world (runOps ops s))) <= closeCalls (trace (world s)) + 1) /\
  (forall ops, closed (self s) = true ->
      closeCalls (trace (world (runOps ops s))) = closeCalls (trace (world s))) /\
  (forall f, closed (self s) = false -> onclose (self s) = Some f ->
      closeCalls (trace (world (snd (onResponseClose s)))) =
        closeCalls (trace (world s)) + 1 /\
      (returns (onerror (self s)) ->
       closeCalls (trace (world (snd (close s)))) = closeCalls (trace (world s)) + 1)).
Proof.
  split; [apply onResponseClose_open|].
  split; [intros H; split; [apply closed_onResponseClose | apply close_closed]; exact H|].
  assert (Hpot : forall ops,
             closeCalls (trace (world (runOps ops s))) <= potential s).
  { intros ops. pose proof (runOps_potential ops s) as H. unfold potential in *. lia. }
  split; [|split].
  - intros ops. split; [apply closeCalls_grows, runOps_grows|].
    specialize (Hpot ops). unfold potential in Hpot. destruct (closed (self s)); lia.
  - intros ops Hc. apply Nat.le_antisymm; [|apply closeCalls_grows, runOps_grows].
    specialize (Hpot ops). unfold potential in Hpot. rewrite Hc in Hpot. lia.
  - intros f Hopen Hf. split.
    + eapply onResponseClose_calls_onclose; eassumption.
    + intros Herr. eapply close_calls_onclose; eassumption.
Qed.

Lemma disconnect_closes_once_witness :
  let s := mkTState (setOnclose (Some politeListener) demoTransport) idleWorld in
  closeCalls (trace (world (snd (onResponseClose s)))) = 1 /\
  closeCalls (trace (world (runOps [OpClose; OpDisconnect; OpClose] (snd (onResponseClose s))))) = 1 /\
  chunks (response (self (snd (onResponseClose s)))) = [].
Proof.
  intros s.
  destruct (disconnect_closes_once s) as (Hopen & _ & _ & _ & Honce).
  destruct (disconnect_closes_once (snd (onResponseClose s))) as (_ & _ & _ & Hafter & _).
  split; [|split].
  - exact (proj1 (Honce politeListener eq_refl eq_refl)).
  - rewrite Hafter by reflexivity.
    exact (proj1 (Honce politeListener eq_refl eq_refl)).
  - rewrite Hopen by reflexivity. reflexivity.
Defined.

(** C5 as stated does not hold: the disconnect listener does not run the
    sequence of [close()]: it writes no close envelope and does not end
    the sink. *)
Lemma disconnect_is_not_close :
  snd (onResponseClose demoState) <> snd (close demoState) /\
  chunks (response (self (snd (onResponseClose demoState)))) = [] /\
  chunks (response (self (snd (close demoState)))) = closeFrame /\
  ended (response (self (snd (onResponseClose demoState)))) = false /\
  ended (response (self (snd (close demoState)))) = true.
Proof.
  split; [|repeat split; reflexivity].
  intros H. apply (f_equal (fun s => ended (response (self s)))) in H.
  discriminate H.
Qed.

(* ================================================================= *)
(** ** [start] *)

Lemma construct_demo : construct "s-1" "/messages" freshResponse = Return demoTransport.
Proof. reflexivity. Qed.

Lemma construct_inv uuid ep r t :
  construct uuid ep r = Return t ->
  sessionId t = uuid /\ messageEndpoint t = ep /\ closed t = false /\
  chunks (response t) = chunks r /\ writeFaults (response t) = writeFaults r.
Proof.
  destruct r as [hs st sent ch en plan ef]. unfold construct, bind, Res.setHeader.
  destruct sent; cbn; [discriminate|]. intros [= <-]. cbn. auto.
Qed.

Lemma writeFailure_None r :
  writeFailure r = None ->
  writeFaults r = [] \/ writeFaults r = [None] \/
  exists plan, writeFaults r = None :: None :: plan.
Proof.
  unfold writeFailure. destruct (writeFaults r) as [|[e|] [|[e'|] plan]];
    try discriminate; eauto.
Qed.

Lemma writeFailure_Some r e :
  writeFailure r = Some e ->
  (exists plan, writeFaults r = Some e :: plan) \/
  (exists plan, writeFaults r = None :: Some e :: plan).
Proof.
  unfold writeFailure. destruct (writeFaults r) as [|[e0|] [|[e'|] plan]];
    try discriminate; intros [= <-]; eauto.
Qed.

(** On an open transport whose sink takes the two chunks, [sendEvent]
    appends them and does nothing else. *)
Lemma sendEvent_accepted event data s :
  writeFailure (response (self s)) = None ->
  sendEvent event data s =
  (Return tt,
   mkTState (setResponse (accepted ["event: " +:+ event +:+ LF;
                                    "data: " +:+ data +:+ LF +:+ LF]
                                   (response (self s))) (self s))
            (world s)).
Proof.
  open_state s. intros H. apply writeFailure_None in H. cbn in H.
  destruct H as [-> | [-> | [plan' ->]]]; unfold_js; cbn;
    rewrite <- ?app_assoc; reflexivity.
Qed.

(** C2, as the code has it. [start()] is rejected with "Transport is
    closed" when the closed flag is set, and that flag is all it looks
    at: there is no started state. On an open transport whose sink takes
    the two writes, a call of [start()] returns and appends one endpoint
    envelope, changing nothing else; on a newly constructed transport
    that envelope is the first on the stream, and a second [start()] on
    the still open transport returns as well and appends a second
    endpoint envelope. *)
Theorem start_emits_endpoint :
  (forall s, closed (self s) = true -> start s = (Throw TransportClosed, s)) /\
  (forall s, closed (self s) = false -> writeFailure (response (self s)) = None ->
     start s =
     (Return tt,
      mkTState (setResponse (accepted (endpointFrame (self s)) (response (self s)))
                            (self s))
               (world s))) /\
  (forall uuid ep r t w,
     construct uuid ep r = Return t -> chunks r = [] -> writeFailure r = None ->
     fst (start (mkTState t w)) = Return tt /\
     chunks (response (self (snd (start (mkTState t w))))) = endpointFrame t /\
     endpointData t = stringify (JObj [("endpoint", JStr (ep +:+ "?sessionId=" +:+ uuid))])) /\
  (forall s, closed (self s) = false -> writeFaults (response (self s)) = [] ->
     fst (start (snd (start s))) = Return tt /\
     chunks (response (self (snd (start (snd (start s)))))) =
       chunks (response (self s)) ++ endpointFrame (self s) ++ endpointFrame (self s)).
Proof.
  assert (Hstart : forall s, closed (self s) = false ->
            writeFailure (response (self s)) = None ->
            start s =
            (Return tt,
             mkTState (setResponse (accepted (endpointFrame (self s)) (response (self s)))
                                   (self s))
                      (world s))).
  { intros s Hopen Hok. unfold start, bind, this. rewrite Hopen.
    apply sendEvent_accepted, Hok. }
  split; [apply closed_start|]. split; [exact Hstart|]. split.
  - intros uuid ep r t w Hc Hch Hok.
    destruct (construct_inv _ _ _ _ Hc) as (Hid & Hep & Hopen & Hch' & Hplan).
    assert (Hok' : writeFailure (response t) = None)
      by (unfold writeFailure in *; rewrite Hplan; exact Hok).
    rewrite Hstart by assumption. cbn.
    rewrite Hch', Hch. split; [reflexivity|]. split; [reflexivity|].
    unfold endpointData. rewrite Hid, Hep. reflexivity.
  - intros s Hopen Hplan.
    rewrite (Hstart s) by (try assumption; unfold writeFailure; rewrite Hplan; reflexivity).
    cbn [snd]. rewrite Hstart.
    + cbn. rewrite <- app_assoc. split; reflexivity.
    + cbn. exact Hopen.
    + unfold writeFailure. cbn. rewrite Hplan. reflexivity.
Qed.

Lemma start_emits_endpoint_witness :
  start (snd (close demoState)) = (Throw TransportClosed, snd (close demoState)) /\
  chunks (response (self (snd (start demoState)))) = endpointFrame demoTransport /\
  chunks (response (self (snd (start (snd (start demoState)))))) =
    endpointFrame demoTransport ++ endpointFrame demoTransport.
Proof.
  destruct start_emits_endpoint as (Hclosed & Hopen & Hfirst & Hsecond).
  split; [|split].
  - apply Hclosed. reflexivity.
  - exact (proj1 (proj2 (Hfirst "s-1" "/messages" freshResponse demoTransport idleWorld
                           eq_refl eq_refl eq_refl))).
  - exact (proj2 (Hsecond demoState eq_refl eq_refl)).
Defined.

(** C2 as stated does not hold: a second [start()] on an open transport
    does not fail, and the stream then carries two endpoint envelopes. *)
Lemma second_start_succeeds :
  closed (self (snd (start demoState))) = false /\
  fst (start (snd (start demoState))) = Return tt /\
  chunks (response (self (snd (start (snd (start demoState)))))) =
    endpointFrame demoTransport ++ endpointFrame demoTransport.
Proof. repeat split; reflexivity. Qed.

(* ================================================================= *)
(** ** [send] on a failing sink *)

Lemma close_writes s : closeWrites s (snd (close s)).
Proof. open_state s. unfold_close. unfold_js. run; closeWrites_tac. Qed.

Lemma close_facts s :
  closed (self (snd (close s))) = true /\ closeWrites s (snd (close s)) /\
  grows s (snd (close s)).
Proof. split; [apply close_sets_closed|]. split; [apply close_writes | apply close_grows]. Qed.

(** What [send] leaves behind after a failed write, seen from outside. *)
Lemma send_failure_effects s m e :
  closed (self s) = false ->
  writeFailure (response (self s)) = Some e ->
  returns (onerror (self s)) ->
  fst (send m s) = Return tt /\
  closed (self (snd (send m s))) = true /\
  (exists rest,
      trace (world (snd (send m s))) =
      trace (world s) ++
        Console "Error sending SSE event:" (Some e) :: reported (self s) e ++ rest) /\
  (exists part, part `prefix_of` closeFrame /\
      chunks (response (self (snd (send m s)))) =
      chunks (response (self s)) ++
        writtenBeforeFailure "message" (response (self s)) ++ part).
Proof.
  open_state s. cbn. intros -> Hfail Herr.
  apply writeFailure_Some in Hfail. cbn in Hfail.
  destruct Hfail as [[plan' ->] | [plan' ->]]; unfold reported, writtenBeforeFailure;
    unfold_js; run_with close_facts; try callback_contra;
    repeat match goal with H : _ /\ _ |- _ => destruct H end;
    unfold closeWrites, grows in *; cbn in *;
    repeat match goal with H : exists _, _ |- _ => destruct H as [? H] end;
    repeat match goal with H : _ /\ _ |- _ => destruct H end;
    (split; [reflexivity|]); (split; [assumption|]);
    (split; [ match goal with H : trace _ = _ |- _ => rewrite H end;
              rewrite <- ?app_assoc; cbn; eexists; reflexivity
            | match goal with H : chunks _ = _ |- _ => rewrite H end;
              rewrite <- ?app_assoc; cbn; eexists; split; [eassumption | reflexivity] ]).
Qed.

(** The catch block as a whole: on a failed write [send] does what
    [this.close().catch(console.error)] does in the state reached after
    logging and reporting the failure, and returns. *)
Lemma send_runs_close s m e :
  closed (self s) = false ->
  writeFailure (response (self s)) = Some e ->
  returns (onerror (self s)) ->
  send m s = (Return tt, snd (closeQuietly (afterWriteFailure "message" e s))).
Proof.
  open_state s. cbn. intros -> Hfail Herr.
  apply writeFailure_Some in Hfail. cbn in Hfail.
  destruct Hfail as [[plan' ->] | [plan' ->]];
    unfold closeQuietly, afterWriteFailure, failedSink; unfold_js;
    run; try callback_contra;
    repeat match goal with
           | |- context [close ?x] =>
               let y := eval cbv in x in progress change x with y
           end;
    match goal with
    | |- context [close ?x] => destruct (close x) as [[[]|?] ?]
    end; reflexivity.
Qed.

Lemma afterWriteFailure_self event e s :
  self (afterWriteFailure event e s) =
  setResponse (failedSink event (response (self s))) (self s).
Proof. open_state s. unfold afterWriteFailure. unfold_js. run; reflexivity. Qed.

Lemma afterWriteFailure_closeCalls event e s :
  closeCalls (trace (world (afterWriteFailure event e s))) = closeCalls (trace (world s)).
Proof.
  open_state s. unfold afterWriteFailure. unfold_js.
  run; rewrite ?closeCalls_app; cbn; lia.
Qed.

Lemma failedSink_chunks event r e :
  writeFailure r = Some e ->
  chunks (failedSink event r) = chunks r ++ writtenBeforeFailure event r /\
  endFault (failedSink event r) = endFault r.
Proof.
  intros H. apply writeFailure_Some in H. unfold failedSink, writtenBeforeFailure.
  destruct H as [[plan ->] | [plan ->]]; cbn; rewrite ?app_nil_r; split; reflexivity.
Qed.

Lemma closeQuietly_self s : self (snd (closeQuietly s)) = self (snd (close s)).
Proof.
  unfold closeQuietly, try_catch. destruct (close s) as [[[]|err] s']; reflexivity.
Qed.

Lemma closeQuietly_closeCalls s :
  closeCalls (trace (world (snd (closeQuietly s)))) =
  closeCalls (trace (world (snd (close s)))).
Proof.
  unfold closeQuietly, try_catch. destruct (close s) as [[[]|err] s']; [reflexivity|].
  cbn. rewrite closeCalls_app. cbn. lia.
Qed.

(** [close] calls [end()] whatever became of its writes. *)
Lemma close_ends_sink_run s :
  closed (self s) = false ->
  endFault (response (self s)) = None ->
  returns (onerror (self s)) ->
  ended (response (self (snd (close s)))) = true.
Proof.
  open_state s. cbn. intros -> -> Herr. unfold_close. unfold_js.
  run; try reflexivity; callback_contra.
Qed.

(** [close] on a sink that takes the two writes puts the whole close
    envelope on the stream. *)
Lemma close_writes_frame s :
  closed (self s) = false ->
  writeFailure (response (self s)) = None ->
  chunks (response (self (snd (close s)))) = chunks (response (self s)) ++ closeFrame.
Proof.
  open_state s. cbn. intros -> Hok.
  apply writeFailure_None in Hok. cbn in Hok.
  destruct Hok as [-> | [-> | [plan' ->]]]; unfold_close; unfold_js;
    run; rewrite <- ?app_assoc; reflexivity.
Qed.

(** C1, as the code has it. When a write to the sink fails during
    [send] on an open transport, the error is caught inside the
    transport: it is logged and handed to [onerror] (when that is
    registered and the value is an [Error]), and, provided [onerror]
    returns, [close()] is run on the transport: what [send] leaves
    behind is what [this.close().catch(console.error)] leaves behind in
    the state after the failure was logged and reported. So the
    transport ends up closed, [onclose] is called once, [end()] is
    called on the sink, and the close envelope is written if the sink
    takes it. [send] itself returns normally to its caller. The failed
    write is not retried: besides what had been written before the
    failure, only (a part of) the close envelope reaches the sink. *)
Theorem send_write_failure s m e :
  closed (self s) = false ->
  writeFailure (response (self s)) = Some e ->
  returns (onerror (self s)) ->
  fst (send m s) = Return tt /\
  closed (self (snd (send m s))) = true /\
  (exists rest,
      trace (world (snd (send m s))) =
      trace (world s) ++
        Console "Error sending SSE event:" (Some e) :: reported (self s) e ++ rest) /\
  (exists part, part `prefix_of` closeFrame /\
      chunks (response (self (snd (send m s)))) =
      chunks (response (self s)) ++
        writtenBeforeFailure "message" (response (self s)) ++ part) /\
  snd (send m s) = snd (closeQuietly (afterWriteFailure "message" e s)) /\
  (forall f, onclose (self s) = Some f ->
     closeCalls (trace (world (snd (send m s)))) = closeCalls (trace (world s)) + 1) /\
  (endFault (response (self s)) = None ->
   ended (response (self (snd (send m s)))) = true) /\
  (writeFailure (failedSink "message" (response (self s))) = None ->
   chunks (response (self (snd (send m s)))) =
   chunks (response (self s)) ++
     writtenBeforeFailure "message" (response (self s)) ++ closeFrame).
Proof.
  intros Hopen Hfail Herr.
  destruct (send_failure_effects s m e Hopen Hfail Herr) as (H1 & H2 & H3 & H4).
  split; [exact H1|]. split; [exact H2|]. split; [exact H3|]. split; [exact H4|].
  pose proof (send_runs_close s m e Hopen Hfail Herr) as Hrun.
  pose proof (afterWriteFailure_self "message" e s) as Hself.
  destruct (failedSink_chunks "message" _ e Hfail) as [Hch Hef].
  set (s2 := afterWriteFailure "message" e s) in *.
  assert (Hopen2 : closed (self s2) = false) by (rewrite Hself; exact Hopen).
  assert (Herr2 : returns (onerror (self s2))) by (rewrite Hself; exact Herr).
  rewrite Hrun. cbn [snd]. split; [reflexivity|]. split; [|split].
  - intros f Hf. rewrite closeQuietly_closeCalls.
    rewrite (close_calls_onclose s2 f Hopen2); [| rewrite Hself; exact Hf | exact Herr2].
    unfold s2. rewrite afterWriteFailure_closeCalls. reflexivity.
  - intros Hend. rewrite closeQuietly_self.
    apply close_ends_sink_run; [exact Hopen2 | | exact Herr2].
    rewrite Hself. cbn. rewrite Hef. exact Hend.
  - intros Hok. rewrite closeQuietly_self.
    rewrite close_writes_frame; [| exact Hopen2 | rewrite Hself; exact Hok].
    rewrite Hself. cbn. rewrite Hch, <- app_assoc. reflexivity.
Qed.

Lemma send_write_failure_witness :
  writeFailure (response (self lossyState)) = Some EPIPE /\
  fst (send (JStr "ping") lossyState) = Return tt /\
  closed (self (snd (send (JStr "ping") lossyState))) = true /\
  closeCalls (trace (world (snd (send (JStr "ping") lossyState)))) = 1 /\
  ended (response (self (snd (send (JStr "ping") lossyState)))) = true /\
  chunks (response (self (snd (send (JStr "ping") lossyState)))) = closeFrame.
Proof.
  split; [reflexivity|].
  assert (H : returns (onerror (self lossyState)))
    by (intros f a ss [= <-]; reflexivity).
  destruct (send_write_failure lossyState (JStr "ping") EPIPE eq_refl eq_refl H)
    as (H1 & H2 & _ & _ & _ & H6 & H7 & H8).
  split; [exact H1|]. split; [exact H2|].
  split; [exact (H6 politeListener eq_refl)|].
  split; [exact (H7 eq_refl) | exact (H8 eq_refl)].
Defined.

(** C1 as stated does not hold: the write error does not reach the
    caller of [send]; the call returns normally. *)
Lemma send_swallows_write_error :
  closed (self brokenPipeState) = false /\
  writeFailure (response (self brokenPipeState)) = Some EPIPE /\
  fst (send (JStr "ping") brokenPipeState) = Return tt /\
  fst (send (JStr "ping") brokenPipeState) <> Throw EPIPE.
Proof. repeat split; try reflexivity. discriminate. Qed.

(* ================================================================= *)
(** ** [handlePostMessage] *)

(** [handlePostMessage] never modifies the transport. *)
Lemma handlePostMessage_keeps_transport m s :
  self (snd (handlePostMessage m s)) = self s.
Proof. open_state s. unfold_js. run; reflexivity. Qed.

(** Delivery to an open transport whose [onmessage], if any, takes the
    message: the callback runs once and the request is acknowledged. *)
Lemma handlePostMessage_delivers m s :
  closed (self s) = false ->
  (forall f, onmessage (self s) = Some f -> fst (f m (sessions (world s))) = None) ->
  headersSent (res (world s)) = false ->
  fst (handlePostMessage m s) = Return tt /\
  statusCode (res (world (snd (handlePostMessage m s)))) = 200 /\
  chunks (res (world (snd (handlePostMessage m s)))) =
    chunks (res (world s)) ++ [stringify ackBody] /\
  ended (res (world (snd (handlePostMessage m s)))) = true /\
  trace (world (snd (handlePostMessage m s))) =
    trace (world s) ++
      match onmessage (self s) with
      | Some _ => [Called (sessionId (self s)) (OnMessage m)]
      | None => []
      end.
Proof.
  open_state s. cbn. intros -> Hok ->. destruct om as [f|].
  - specialize (Hok f eq_refl). unfold_js. cbn.
    destruct (f m ss) as [[e|] ss'] eqn:E; cbn in *; [discriminate|].
    repeat split; reflexivity.
  - unfold_js. cbn. rewrite app_nil_r. repeat split; reflexivity.
Qed.

(** C10, as the code has it. When [onmessage] throws during
    [handlePostMessage] on an open transport, the transport is left
    exactly as it was (in particular open); the thrown value is logged
    and, when [onerror] is registered and the value is an [Error],
    passed to [onerror]; and provided [onerror] returns, the request is
    answered with status 500 and the JSON body carrying code -32000.
    Later calls are served as before: [send] writes its envelope and a
    message that [onmessage] takes is acknowledged. *)
Theorem handlePostMessage_onmessage_throws s m f e ss1 :
  closed (self s) = false ->
  onmessage (self s) = Some f ->
  f m (sessions (world s)) = (Some e, ss1) ->
  returns (onerror (self s)) ->
  headersSent (res (world s)) = false ->
  let s' := snd (handlePostMessage m s) in
  fst (handlePostMessage m s) = Return tt /\
  self s' = self s /\
  statusCode (res (world s')) = 500 /\
  chunks (res (world s')) = chunks (res (world s)) ++ [stringify serverErrorBody] /\
  trace (world s') =
    trace (world s) ++
      Called (sessionId (self s)) (OnMessage m) ::
      Console "Error handling message:" (Some e) :: reported (self s) e /\
  (forall m', writeFailure (response (self s)) = None ->
      fst (send m' s') = Return tt /\
      chunks (response (self (snd (send m' s')))) =
        chunks (response (self s)) ++ messageFrame m') /\
  (forall m', fst (f m' (sessions (world (snd (newRequest s'))))) = None ->
      fst (step (OpPost m') s') = Return tt /\
      statusCode (res (world (snd (step (OpPost m') s')))) = 200).
Proof.
  intros Hopen Hom Hthrow Herr Hsent s'.
  assert (Hself : self s' = self s) by apply handlePostMessage_keeps_transport.
  assert (Hmain :
    fst (handlePostMessage m s) = Return tt /\
    statusCode (res (world s')) = 500 /\
    chunks (res (world s')) = chunks (res (world s)) ++ [stringify serverErrorBody] /\
    trace (world s') =
      trace (world s) ++
        Called (sessionId (self s)) (OnMessage m) ::
        Console "Error handling message:" (Some e) :: reported (self s) e).
  { subst s'. clear Hself. open_state s. cbn in *. subst cl om sent0.
    unfold reported. unfold_js. cbn. rewrite Hthrow.
    run; try callback_contra; rewrite <- ?app_assoc; repeat split; reflexivity. }
  destruct Hmain as (H1 & H2 & H3 & H4).
  repeat (split; [assumption|]). split.
  - intros m' Hok. unfold send, bind, this. rewrite Hself, Hopen.
    rewrite sendEvent_accepted by (rewrite Hself; exact Hok).
    cbn. rewrite Hself. split; reflexivity.
  - intros m' Hm'.
    assert (Hd := handlePostMessage_delivers m' (snd (newRequest s'))).
    cbn [step]. unfold bind at 1 2. cbn [newRequest fst snd] in *.
    destruct Hd as (Hd1 & Hd2 & _).
    + cbn. rewrite Hself. exact Hopen.
    + cbn. rewrite Hself, Hom. intros f' [= <-]. exact Hm'.
    + reflexivity.
    + split; assumption.
Qed.

Lemma handlePostMessage_onmessage_throws_witness :
  fst (handlePostMessage JNull pickyState) = Return tt /\
  statusCode (res (world (snd (handlePostMessage JNull pickyState)))) = 500 /\
  chunks (res (world (snd (handlePostMessage JNull pickyState)))) =
    [stringify serverErrorBody] /\
  closed (self (snd (handlePostMessage JNull pickyState))) = false.
Proof.
  assert (H : returns (onerror (self pickyState)))
    by (intros f a ss [= <-]; reflexivity).
  destruct (handlePostMessage_onmessage_throws pickyState JNull pickyListener
              (JsError "bad request") [] eq_refl eq_refl eq_refl H eq_refl)
    as (H1 & H2 & H3 & H4 & _).
  split; [exact H1|]. split; [exact H3|]. split; [exact H4|].
  rewrite H2. reflexivity.
Defined.

(** C10 as stated does not hold: when [onerror] throws in turn,
    [handlePostMessage] is rejected before it answers, and the router
    replies 500 with a plain text body, without the code -32000. *)
Lemma onerror_failure_hides_error_code :
  closed pickyRudeTransport = false /\
  fst (handlePostMessage JNull (mkTState pickyRudeTransport idleWorld)) =
    Throw (JsError "handler failed") /\
  statusCode (res (sworld (snd (postMessages (Some "s-1") JNull pickyRudeSystem)))) = 500 /\
  chunks (res (sworld (snd (postMessages (Some "s-1") JNull pickyRudeSystem)))) =
    ["메시지 처리 오류"%string] /\
  chunks (res (sworld (snd (postMessages (Some "s-1") JNull pickyRudeSystem)))) <>
    [stringify serverErrorBody].
Proof. repeat split; try reflexivity. discriminate. Qed.

(* ================================================================= *)
(** ** Framing *)


Lemma framed_refl s : framed s s.
Proof.
  exists []. split; [symmetry; apply app_nil_r|]. split; [constructor|].
  intros H. split; [constructor | exact H].
Qed.

Lemma framed_trans s1 s2 s3 :
  sameIdentity (self s1) (self s2) -> framed s1 s2 -> framed s2 s3 -> framed s1 s3.
Proof.
  intros [Eid Eep] (i1 & Hc1 & Hv1 & Hh1) (i2 & Hc2 & Hv2 & Hh2).
  exists (i1 ++ i2). split; [|split].
  - rewrite Hc2, Hc1. unfold render. rewrite map_app, concat_app, app_assoc. reflexivity.
  - apply Forall_app. split; [exact Hv1|].
    eapply Forall_impl; [exact Hv2|]. intros [[]|[]]; cbn; congruence.
  - intros H. destruct (Hh1 H) as [W1 H']. destruct (Hh2 H') as [W2 H''].
    split; [apply Forall_app; split; assumption | exact H''].
Qed.

Lemma close_framed s : framed s (snd (close s)).
Proof.
  open_state s. unfold_close. unfold_js.
  run; framed_tac (CloseEnv "Server closing connection").
Qed.

Lemma step_framed op s : framed s (snd (step op s)).
Proof.
  open_state s. destruct op as [|m|  | |m|f|f|f].
  - unfold_js; run_with close_framed;
      first [ framed_after_close (EndpointEnv (ep +:+ "?sessionId=" +:+ sid))
            | framed_tac (EndpointEnv (ep +:+ "?sessionId=" +:+ sid)) ].
  - unfold_js; run_with close_framed;
      first [ framed_after_close (MessageEnv m) | framed_tac (MessageEnv m) ].
  - apply close_framed.
  - unfold_js; run; framed_tac (MessageEnv JNull).
  - unfold_js; run; framed_tac (MessageEnv JNull).
  - unfold_js; run; framed_tac (MessageEnv JNull).
  - unfold_js; run; framed_tac (MessageEnv JNull).
  - unfold_js; run; framed_tac (MessageEnv JNull).
Qed.

Lemma runOps_framed ops s : framed s (runOps ops s).
Proof.
  revert s. induction ops as [|op ops IH]; intros s; cbn; [apply framed_refl|].
  eapply framed_trans; [apply step_identity | apply step_framed | apply IH].
Qed.

(** *** A JSON text is a single line *)

Lemma containsLF_append a b :
  containsLF (a +:+ b) = containsLF a || containsLF b.
Proof.
  induction a as [|c a IH]; [reflexivity|].
  change (containsLF (String c (a +:+ b)) = containsLF (String c a) || containsLF b).
  cbn [containsLF]. rewrite IH. apply orb_assoc.
Qed.

Lemma containsLF_escapeChar c : containsLF (escapeChar c) = false.
Proof. destruct c as [[] [] [] [] [] [] [] []]; reflexivity. Qed.

Lemma containsLF_escape s : containsLF (escape s) = false.
Proof.
  induction s as [|c s IH]; cbn; [reflexivity|].
  rewrite containsLF_append, containsLF_escapeChar, IH. reflexivity.
Qed.

Lemma containsLF_quote s : containsLF (quote s) = false.
Proof.
  unfold quote. cbn. rewrite containsLF_append, containsLF_escape. reflexivity.
Qed.

Lemma containsLF_uint d : containsLF (NilEmpty.string_of_uint d) = false.
Proof. induction d; [reflexivity | exact IHd ..]. Qed.

Lemma containsLF_number n : containsLF (numberToString n) = false.
Proof.
  unfold numberToString.
  destruct (Z.to_int n) as [d|d]; destruct d;
    first [reflexivity | exact (containsLF_uint _)].
Qed.

Lemma containsLF_concat sep l :
  containsLF sep = false -> Forall (fun s => containsLF s = false) l ->
  containsLF (String.concat sep l) = false.
Proof.
  intros Hsep H. induction H as [|s l Hs Hl IH]; cbn; [reflexivity|].
  destruct l as [|s' l']; [exact Hs|].
  change (containsLF (s +:+ sep +:+ String.concat sep (s' :: l')) = false).
  rewrite !containsLF_append, Hs, Hsep, IH. reflexivity.
Qed.

(** [JSON.stringify] escapes line feeds, so its result has none. *)
Lemma containsLF_stringify : forall j, containsLF (stringify j) = false.
Proof.
  fix IH 1. intros [ |b|n|s|xs|fs].
  - reflexivity.
  - destruct b; reflexivity.
  - apply containsLF_number.
  - apply containsLF_quote.
  - change (containsLF ("[" +:+ String.concat "," (map stringify xs) +:+ "]") = false).
    rewrite !containsLF_append. rewrite containsLF_concat; [reflexivity | reflexivity |].
    induction xs as [|x xs IHxs]; constructor; [apply IH | exact IHxs].
  - change (containsLF
              ("{" +:+ String.concat ","
                 (map (fun kv => let '(k, v) := kv in quote k +:+ ":" +:+ stringify v) fs)
               +:+ "}") = false).
    rewrite !containsLF_append. rewrite containsLF_concat; [reflexivity | reflexivity |].
    induction fs as [|[k v] fs IHfs]; constructor; [|exact IHfs].
    rewrite !containsLF_append, containsLF_quote, IH. reflexivity.
Qed.

(** C9. Whatever operations are run on a transport, what its sink has
    received continues the stream by items of that transport; on a sink
    without write faults every item is a whole envelope. An envelope is
    framed as two lines, [event: <kind>] and [data: <json>], followed by
    a blank line, where the kind is endpoint, message or close and the
    JSON text is a single line; the endpoint payload is the object with
    the field "endpoint" holding <base-path>?sessionId=<id> for the
    session id of the transport, and the close payload is an object
    with a "reason" string. (When the second write of an envelope fails,
    only its event line is on the stream.) *)
Theorem stream_is_framed s ops :
  (exists items,
      chunks (response (self (runOps ops s))) =
        chunks (response (self s)) ++ concat (map itemChunks items) /\
      Forall (fun i => sentBy (self s) (envelopeOf i)) items /\
      (writeFaults (response (self s)) = [] -> Forall isWhole items)) /\
  (forall e,
      sentBy (self s) e ->
      frame e = ["event: " +:+ kindName e +:+ LF;
                 "data: " +:+ stringify (payload e) +:+ LF +:+ LF] /\
      In (kindName e) ["endpoint"; "message"; "close"]%string /\
      containsLF (kindName e) = false /\
      containsLF (stringify (payload e)) = false /\
      (kindName e = "endpoint" ->
       payload e = JObj [("endpoint",
                          JStr (messageEndpoint (self s) +:+ "?sessionId=" +:+
                                sessionId (self s)))]) /\
      (kindName e = "close" -> exists reason, payload e = JObj [("reason", JStr reason)])).
Proof.
  split.
  - destruct (runOps_framed ops s) as (items & Hc & Hv & Hh).
    exists items. split; [exact Hc|]. split; [exact Hv|].
    intros H. apply Hh, H.
  - intros e He. split; [reflexivity|].
    split; [destruct e; cbn; auto|].
    split; [destruct e; reflexivity|].
    split; [apply containsLF_stringify|].
    split.
    + destruct e; cbn in *; try discriminate. intros _. rewrite He. reflexivity.
    + destruct e; cbn in *; try discriminate. intros _. eauto.
Qed.

Lemma stream_is_framed_witness :
  (exists items,
      chunks (response (self (runOps demoOps demoState))) = concat (map itemChunks items) /\
      Forall isWhole items) /\
  payload (EndpointEnv "/messages?sessionId=s-1") =
    JObj [("endpoint", JStr "/messages?sessionId=s-1")] /\
  containsLF (stringify (payload (MessageEnv (JStr LF)))) = false.
Proof.
  destruct (stream_is_framed demoState demoOps) as [(items & Hc & _ & Hw) Hframe].
  split; [exists items; split; [exact Hc | apply Hw; reflexivity]|].
  split.
  - destruct (Hframe (EndpointEnv "/messages?sessionId=s-1") eq_refl)
      as (_ & _ & _ & _ & Hep & _).
    exact (Hep eq_refl).
  - destruct (Hframe (MessageEnv (JStr LF)) I) as (_ & _ & _ & Hline & _).
    exact Hline.
Defined.

(* ================================================================= *)
(** ** The session table *)

Section Entries.
Context {V : Type}.
Implicit Types (k : string) (v : V) (l : list (string * V)).

Lemma getEntry_setEntry k v l : getEntry k (setEntry k v l) = Some v.
Proof.
  induction l as [|[k' v'] l IH]; cbn.
  - rewrite String.eqb_refl. reflexivity.
  - destruct (String.eqb k k') eqn:E; cbn; rewrite ?String.eqb_refl, ?E; auto.
Qed.

Lemma getEntry_setEntry_other k k' v l :
  k' <> k -> getEntry k' (setEntry k v l) = getEntry k' l.
Proof.
  intros Hne. induction l as [|[k0 v0] l IH]; cbn.
  - destruct (String.eqb_spec k' k); [contradiction | reflexivity].
  - destruct (String.eqb_spec k k0) as [->|Hk]; cbn.
    + destruct (String.eqb_spec k' k0); [contradiction | reflexivity].
    + rewrite IH. reflexivity.
Qed.

Lemma getEntry_None_keys k l : getEntry k l = None <-> ~ In k (map fst l).
Proof.
  induction l as [|[k0 v0] l IH]; cbn; [tauto|].
  destruct (String.eqb_spec k k0) as [->|Hk].
  - split; [discriminate | intros H; exfalso; apply H; auto].
  - rewrite IH. intuition congruence.
Qed.

Lemma keys_setEntry k v l :
  map fst (setEntry k v l) =
  if hasEntry k l then map fst l else map fst l ++ [k].
Proof.
  unfold hasEntry. induction l as [|[k0 v0] l IH]; cbn; [reflexivity|].
  destruct (String.eqb_spec k k0) as [->|Hk]; cbn; [reflexivity|].
  rewrite IH. destruct (getEntry k l); reflexivity.
Qed.

(** The table never holds two entries for one session id. *)
Lemma setEntry_NoDup k v l : NoDup (map fst l) -> NoDup (map fst (setEntry k v l)).
Proof.
  intros H. rewrite keys_setEntry. unfold hasEntry.
  destruct (getEntry k l) eqn:E; [exact H|].
  apply getEntry_None_keys in E.
  apply NoDup_ListNoDup, List.NoDup_app; [apply NoDup_ListNoDup, H | | ].
  - repeat constructor. intros [].
  - intros x Hx [<-|[]]. contradiction.
Qed.

End Entries.

(* ================================================================= *)
(** ** [SessionStore] *)

Import SessionStore.

Lemma invoke_spec {A} r (m : TM A) s t :
  heap s !! r = Some t ->
  invoke r m s =
  (fst (m (mkTState t (sworld s))),
   mkSystem (<[r := self (snd (m (mkTState t (sworld s))))]> (heap s))
            (world (snd (m (mkTState t (sworld s)))))).
Proof.
  intros H. unfold invoke. rewrite H.
  destruct (m (mkTState t (sworld s))) as [o ts]. reflexivity.
Qed.

Lemma registerSession_run r s t :
  heap s !! r = Some t ->
  registerSession r s =
  (Return tt,
   mkSystem (heap s)
            (mkWorld (setEntry (sessionId t) r (sessions (sworld s)))
                     (trace (sworld s) ++ [Console ("세션 등록됨: " +:+ sessionId t) None])
                     (res (sworld s)))).
Proof.
  intros H. unfold registerSession. unfold bind at 1.
  rewrite (invoke_spec _ _ _ _ H). cbn.
  rewrite list_insert_id by exact H. destruct s as [h [ss tr rs]]. reflexivity.
Qed.

(** C8, as the code has it. [registerSession] files the transport under
    its session id and returns; the other entries stay as they are and
    the table keeps at most one entry per session id. When the id is
    already in the table, its entry is replaced by the new transport:
    the call still returns normally and logs the same line as any other
    registration. *)
Theorem registerSession_overwrites r s t :
  heap s !! r = Some t ->
  let s' := snd (registerSession r s) in
  fst (registerSession r s) = Return tt /\
  getEntry (sessionId t) (sessions (sworld s')) = Some r /\
  (forall k, k <> sessionId t ->
     getEntry k (sessions (sworld s')) = getEntry k (sessions (sworld s))) /\
  (NoDup (map fst (sessions (sworld s))) -> NoDup (map fst (sessions (sworld s')))) /\
  (forall r0, getEntry (sessionId t) (sessions (sworld s)) = Some r0 ->
     length (sessions (sworld s')) = length (sessions (sworld s))) /\
  heap s' = heap s /\
  trace (sworld s') =
    trace (sworld s) ++ [Console ("세션 등록됨: " +:+ sessionId t) None].
Proof.
  intros H s'. subst s'. rewrite (registerSession_run _ _ _ H). cbn.
  split; [reflexivity|]. split; [apply getEntry_setEntry|].
  split; [intros k Hk; apply getEntry_setEntry_other, Hk|].
  split; [apply setEntry_NoDup|].
  split; [|split; reflexivity].
  intros r0 Hr0.
  rewrite <- (length_map fst (setEntry _ _ _)), <- (length_map fst (sessions _)).
  rewrite keys_setEntry. unfold hasEntry. rewrite Hr0. reflexivity.
Qed.

Lemma registerSession_overwrites_witness :
  getEntry "s-1" (sessions (sworld twinSystem)) = Some 0 /\
  fst (registerSession 1 twinSystem) = Return tt /\
  getEntry "s-1" (sessions (sworld (snd (registerSession 1 twinSystem)))) = Some 1 /\
  length (sessions (sworld (snd (registerSession 1 twinSystem)))) = 1.
Proof.
  destruct (registerSession_overwrites 1 twinSystem
              (setOnclose (Some politeListener) demoTransport) eq_refl)
    as (H1 & H2 & _ & _ & H5 & _).
  split; [reflexivity|]. split; [exact H1|]. split; [exact H2|].
  exact (H5 0 eq_refl).
Defined.

(** C8 as stated does not hold: registering a second transport under a
    session id that is in the table replaces the entry, and nothing
    tells the collision from a first registration: the call returns and
    the log shows the usual line. *)
Lemma registerSession_silently_overwrites :
  sessions (sworld twinSystem) = [("s-1", 0)] /\
  registerSession 1 twinSystem =
  (Return tt,
   mkSystem (heap twinSystem)
            (mkWorld [("s-1", 1)] [Console ("세션 등록됨: " +:+ "s-1") None] freshResponse)) /\
  trace (sworld (snd (registerSession 1 twinSystem))) =
  trace (sworld (snd (registerSession 1
                        (mkSystem (heap twinSystem) (mkWorld [] [] freshResponse))))).
Proof. repeat split; reflexivity. Qed.

(* ================================================================= *)
(** ** The router: [POST /messages] *)

Lemma post_missing q body s :
  q = None \/ q = Some EmptyString ->
  headersSent (res (sworld s)) = false ->
  postMessages q body s =
  (Return tt,
   mkSystem (heap s)
     (mkWorld (sessions (sworld s))
        (trace (sworld s) ++
           [postLog; Console "요청 URL에 세션 ID가 제공되지 않음" None])
        (replied 400 "sessionId 파라미터 누락" (res (sworld s))))).
Proof.
  destruct s as [h [ss tr [hs st sent ch en plan ef]]]. cbn.
  intros [-> | ->] ->; unfold postMessages, inWorldS; unfold_js; cbn;
    unfold emit, setRes, replied; cbn; rewrite <- app_assoc; reflexivity.
Qed.

Lemma post_unknown sid body s :
  sid <> EmptyString ->
  getEntry sid (sessions (sworld s)) = None ->
  headersSent (res (sworld s)) = false ->
  postMessages (Some sid) body s =
  (Return tt,
   mkSystem (heap s)
     (mkWorld (sessions (sworld s))
        (trace (sworld s) ++
           [postLog; Console ("세션 ID에 대한 활성 트랜스포트 없음: " +:+ sid) None])
        (replied 404 "세션을 찾을 수 없음" (res (sworld s))))).
Proof.
  destruct s as [h [ss tr [hs st sent ch en plan ef]]]. cbn.
  intros Hsid Hget ->. destruct sid as [|c sid]; [contradiction|].
  unfold postMessages, getSession, inWorldS; unfold_js; cbn. rewrite Hget. cbn.
  unfold emit, setRes, replied; cbn; rewrite <- app_assoc; reflexivity.
Qed.

Lemma post_known sid body s r t :
  sid <> EmptyString ->
  getEntry sid (sessions (sworld s)) = Some r ->
  heap s !! r = Some t ->
  closed t = false ->
  (forall f, onmessage t = Some f -> fst (f body (sessions (sworld s))) = None) ->
  headersSent (res (sworld s)) = false ->
  let s' := snd (postMessages (Some sid) body s) in
  fst (postMessages (Some sid) body s) = Return tt /\
  statusCode (res (sworld s')) = 200 /\
  chunks (res (sworld s')) = chunks (res (sworld s)) ++ [stringify ackBody] /\
  heap s' = heap s /\
  trace (sworld s') =
    trace (sworld s) ++
      postLog :: match onmessage t with
                 | Some _ => [Called (sessionId t) (OnMessage body)]
                 | None => []
                 end.
Proof.
  intros Hsid Hget Hheap Hopen Hok Hsent.
  destruct sid as [|c sid]; [contradiction|].
  set (w1 := emit postLog (sworld s)).
  assert (Hrun : postMessages (Some (String c sid)) body s =
                 try_catch (invoke r (handlePostMessage body))
                   (fun error =>
                      inWorldS (console_error "메시지 처리 오류:" (Some error)) ;;
                      sent ← inWorldS (inRes (fun r => (Return (headersSent r), r)));
                      if negb sent
                      then inWorldS (inRes (Res.status 500 ;; Res.send "메시지 처리 오류"))
                      else ret tt)
                   (mkSystem (heap s) w1)).
  { unfold postMessages, getSession, inWorldS, console_error, zoom, bind. cbn.
    rewrite Hget. reflexivity. }
  destruct (handlePostMessage_delivers body (mkTState t w1) Hopen Hok Hsent)
    as (H1 & H2 & H3 & H4 & H5).
  pose proof (handlePostMessage_keeps_transport body (mkTState t w1)) as Hkeep.
  cbn zeta. rewrite Hrun. unfold try_catch.
  rewrite (invoke_spec r _ (mkSystem (heap s) w1) t Hheap).
  cbn [sworld heap] in *. rewrite H1. cbn [fst snd sworld heap].
  rewrite Hkeep. cbn [self]. rewrite list_insert_id by exact Hheap.
  split; [reflexivity|]. split; [exact H2|]. split; [exact H3|].
  split; [reflexivity|]. rewrite H5. cbn. rewrite <- app_assoc. reflexivity.
Qed.

(** C7. A POST without a session id (or with an empty one) is answered
    400, and the answer is the same whatever the registry holds: the
    registry and the transports are not touched. A POST for a session id
    the registry does not know is answered 404; no transport is touched
    and no callback runs. A POST for a known, open session is delivered
    to its transport: [onmessage], if registered, is called with the
    body, and when it returns the caller gets status 200 with the
    acknowledgement as the whole body, while the transport and its push
    stream are left as they were. *)
Theorem postMessages_routes :
  (forall q body s,
      q = None \/ q = Some EmptyString ->
      headersSent (res (sworld s)) = false ->
      postMessages q body s =
      (Return tt,
       mkSystem (heap s)
         (mkWorld (sessions (sworld s))
            (trace (sworld s) ++
               [postLog; Console "요청 URL에 세션 ID가 제공되지 않음" None])
            (replied 400 "sessionId 파라미터 누락" (res (sworld s)))))) /\
  (forall sid body s,
      sid <> EmptyString ->
      getEntry sid (sessions (sworld s)) = None ->
      headersSent (res (sworld s)) = false ->
      postMessages (Some sid) body s =
      (Return tt,
       mkSystem (heap s)
         (mkWorld (sessions (sworld s))
            (trace (sworld s) ++
               [postLog; Console ("세션 ID에 대한 활성 트랜스포트 없음: " +:+ sid) None])
            (replied 404 "세션을 찾을 수 없음" (res (sworld s)))))) /\
  (forall sid body s r t,
      sid <> EmptyString ->
      getEntry sid (sessions (sworld s)) = Some r ->
      heap s !! r = Some t ->
      closed t = false ->
      (forall f, onmessage t = Some f -> fst (f body (sessions (sworld s))) = None) ->
      headersSent (res (sworld s)) = false ->
      let s' := snd (postMessages (Some sid) body s) in
      fst (postMessages (Some sid) body s) = Return tt /\
      statusCode (res (sworld s')) = 200 /\
      chunks (res (sworld s')) = chunks (res (sworld s)) ++ [stringify ackBody] /\
      heap s' = heap s /\
      trace (sworld s') =
        trace (sworld s) ++
          postLog :: match onmessage t with
                     | Some _ => [Called (sessionId t) (OnMessage body)]
                     | None => []
                     end).
Proof.
  split; [exact post_missing|]. split; [exact post_unknown | exact post_known].
Qed.

Lemma postMessages_routes_witness :
  statusCode (res (sworld (snd (postMessages None JNull oneSessionSystem)))) = 400 /\
  statusCode (res (sworld (snd (postMessages (Some "nobody") JNull oneSessionSystem)))) = 404 /\
  statusCode (res (sworld (snd (postMessages (Some "s-1") (JObj [("foo", JNum 1)])
                                  oneSessionSystem)))) = 200 /\
  chunks (res (sworld (snd (postMessages (Some "s-1") (JObj [("foo", JNum 1)])
                              oneSessionSystem)))) = [stringify ackBody].
Proof.
  destruct postMessages_routes as (Hmissing & Hunknown & Hknown).
  split; [|split].
  - rewrite (Hmissing None JNull oneSessionSystem); [reflexivity | auto | reflexivity].
  - rewrite (Hunknown "nobody"%string JNull oneSessionSystem);
      [reflexivity | discriminate | reflexivity | reflexivity].
  - assert (Hok : forall f,
               onmessage (setOnmessage (Some pickyListener) demoTransport) = Some f ->
               fst (f (JObj [("foo", JNum 1)]) (sessions (sworld oneSessionSystem))) = None)
      by (intros f [= <-]; reflexivity).
    assert (Hsid : "s-1"%string <> EmptyString) by discriminate.
    destruct (Hknown "s-1"%string (JObj [("foo", JNum 1)]) oneSessionSystem 0
                (setOnmessage (Some pickyListener) demoTransport)
                Hsid eq_refl eq_refl eq_refl Hok eq_refl) as (_ & H2 & H3 & _).
    split; [exact H2 | exact H3].
Defined.

(* ================================================================= *)
(** ** [closeAllSessions] *)

(** What [close] can throw was thrown by one of the callbacks. *)
Lemma close_throws s e :
  fst (close s) = Throw e ->
  (exists f a ss, onclose (self s) = Some f /\ fst (f a ss) = Some e) \/
  (exists f a ss, onerror (self s) = Some f /\ fst (f a ss) = Some e).
Proof.
  open_state s. unfold_close. unfold_js.
  run; intros [= <-];
    match goal with
    | E : ?f ?a ?x = (Some ?e, _) |- context [Some ?f = Some _] =>
        first [ left; exists f, a, x; split; [reflexivity | rewrite E; reflexivity]
              | right; exists f, a, x; split; [reflexivity | rewrite E; reflexivity] ]
    end.
Qed.

Lemma advances_refl h : advances h h.
Proof. unfold advances. induction h; constructor; auto. Qed.

Lemma advances_trans h1 h2 h3 : advances h1 h2 -> advances h2 h3 -> advances h1 h3.
Proof.
  unfold advances. intros H12. revert h3.
  induction H12 as [|t1 t2 h1 h2 (Hc & Ho & He) _ IH]; intros h3 H23;
    inversion H23 as [|? t3 ? h3' (Hc' & Ho' & He') H23']; subst; constructor.
  - repeat split; [auto | congruence | congruence].
  - apply IH, H23'.
Qed.

Lemma advances_lookup h h' r t :
  advances h h' -> h !! r = Some t ->
  exists t', h' !! r = Some t' /\ (closed t = true -> closed t' = true) /\
             onclose t' = onclose t /\ onerror t' = onerror t.
Proof.
  intros H Hr. destruct (Forall2_lookup_l _ _ _ _ _ H Hr) as (t' & Hr' & Ht').
  exists t'. split; [exact Hr' | exact Ht'].
Qed.

(** One [transport.close()] of the sweep: the promise is always produced,
    the transport behind a valid reference ends up closed, and the rest
    of the heap is as before. *)
Lemma startClose_spec r s :
  exists p,
    fst (startClose r s) = Return p /\
    advances (heap s) (heap (snd (startClose r s))) /\
    (forall t, heap s !! r = Some t ->
               exists t', heap (snd (startClose r s)) !! r = Some t' /\ closed t' = true) /\
    (forall t, heap s !! r = Some t -> noNullish t -> p <> Throw JsNullish) /\
    (heap s !! r = None -> p = Throw DanglingReference).
Proof.
  unfold startClose. destruct (heap s !! r) as [t|] eqn:Hr.
  - rewrite (invoke_spec _ _ _ _ Hr).
    set (ts := mkTState t (sworld s)). cbn [fst snd heap].
    exists (fst (close ts)). split; [reflexivity|].
    assert (Hlen : r < length (heap s)) by (eapply lookup_lt_Some; exact Hr).
    pose proof (close_shape ts) as Hshape.
    split; [|split; [|split]].
    + unfold advances. rewrite <- (list_insert_id (heap s) r t Hr) at 1.
      apply Forall2_insert; [apply advances_refl|].
      rewrite Hshape. cbn. auto.
    + intros t0 _. exists (self (snd (close ts))).
      split; [apply list_lookup_insert_eq, Hlen | apply close_sets_closed].
    + intros t0 [= <-] [Hoc Hoe] Hp.
      apply close_throws in Hp. cbn in Hp.
      destruct Hp as [(f & a & ss & Hf & Hthrow) | (f & a & ss & Hf & Hthrow)].
      * exact (Hoc f a ss Hf Hthrow).
      * exact (Hoe f a ss Hf Hthrow).
    + discriminate.
  - unfold invoke. rewrite Hr. cbn. exists (Throw DanglingReference).
    split; [reflexivity|]. split; [apply advances_refl|].
    split; [discriminate|]. split; [discriminate | reflexivity].
Qed.

Lemma startClose_world_heap r s :
  length (heap (snd (startClose r s))) = length (heap s).
Proof.
  destruct (startClose_spec r s) as (p & _ & Hadv & _).
  symmetry. eapply Forall2_length, Hadv.
Qed.

(** The sweep over the snapshot. *)
Lemma mapM_startClose l : forall s,
  exists ps,
    fst (mapM startClose l s) = Return ps /\
    advances (heap s) (heap (snd (mapM startClose l s))) /\
    (forall r t, In r l -> heap s !! r = Some t ->
       exists t', heap (snd (mapM startClose l s)) !! r = Some t' /\ closed t' = true) /\
    (Forall noNullish (heap s) -> Forall settles ps).
Proof.
  induction l as [|r l IH]; intros s.
  - exists []. cbn. split; [reflexivity|]. split; [apply advances_refl|].
    split; [intros ? ? []|]. constructor.
  - destruct (startClose_spec r s) as (p & Hp & Hadv & Hclosed & Hsettle & Hdangling).
    destruct (startClose r s) as [o s1] eqn:E1. cbn [fst snd] in *. subst o.
    destruct (IH s1) as (ps & Hps & Hadv' & Hclosed' & Hsettle').
    destruct (mapM startClose l s1) as [o s2] eqn:E2. cbn [fst snd] in *. subst o.
    assert (Hrun : mapM startClose (r :: l) s = (Return (p :: ps), s2)).
    { cbn [mapM]. unfold bind. rewrite E1, E2. reflexivity. }
    rewrite Hrun. cbn [fst snd].
    exists (p :: ps). split; [reflexivity|].
    split; [eapply advances_trans; eassumption|]. split.
    + intros r0 t [<- | Hin] Hr0.
      * destruct (Hclosed t Hr0) as (t1 & Hr1 & Hc1).
        destruct (advances_lookup _ _ _ _ Hadv' Hr1) as (t2 & Hr2 & Hc2 & _).
        exists t2. split; [exact Hr2 | apply Hc2, Hc1].
      * destruct (advances_lookup _ _ _ _ Hadv Hr0) as (t1 & Hr1 & _).
        apply (Hclosed' r0 t1 Hin Hr1).
    + intros Hall. constructor.
      * destruct (heap s !! r) as [t|] eqn:Hr.
        -- apply (Hsettle t eq_refl).
           rewrite Forall_forall in Hall. apply Hall.
           eapply list_elem_of_lookup_2, Hr.
        -- rewrite (Hdangling eq_refl). discriminate.
      * apply Hsettle'. clear - Hadv Hall.
        induction Hadv as [|t t' h h' (_ & Ho & He) _ IHf]; [constructor|].
        inversion Hall as [|? ? Ht Hh]; subst. constructor; [|apply IHf, Hh].
        destruct Ht as [H1 H2]. split; [rewrite Ho | rewrite He]; assumption.
Qed.

(** The handlers attached to the promises only log. *)
Lemma settleClose_spec p s :
  heap (snd (settleClose p s)) = heap s /\
  sessions (sworld (snd (settleClose p s))) = sessions (sworld s) /\
  (settles p -> fst (settleClose p s) = Return tt).
Proof.
  destruct p as [[]|[m|x|]]; cbn; repeat split; try reflexivity.
  intros H. exfalso. apply H. reflexivity.
Qed.

Lemma awaitAll_spec ps : forall s,
  heap (snd (awaitAll ps s)) = heap s /\
  sessions (sworld (snd (awaitAll ps s))) = sessions (sworld s) /\
  (Forall settles ps -> fst (awaitAll ps s) = Return tt).
Proof.
  induction ps as [|p ps IH]; intros s; cbn [awaitAll].
  - cbn. auto using Forall_nil.
  - destruct (settleClose_spec p s) as (Hh & Hs & Hr).
    destruct (settleClose p s) as [[[]|e] s1]; cbn [fst snd] in *.
    + destruct (IH s1) as (H1 & H2 & H3).
      rewrite H1, H2, Hh, Hs. repeat split.
      intros H. apply H3. inversion H; assumption.
    + destruct (IH s1) as (H1 & H2 & H3).
      destruct (awaitAll ps s1) as [o s2]; cbn [fst snd] in *.
      rewrite H1, H2, Hh, Hs. repeat split.
      intros H. inversion H as [|? ? Hp _]. specialize (Hr Hp). discriminate Hr.
Qed.

(** [closeAllSessions] in three phases: the sweep, the handlers, the
    clearing of the table. *)
Lemma closeAllSessions_run s ps s1 :
  mapM startClose (map snd (sessions (sworld s)))
    (mkSystem (heap s)
       (emit (Console (NilZero.string_of_uint (Nat.to_uint (length (sessions (sworld s))))
                       +:+ "개의 활성 세션 종료 중...") None) (sworld s)))
  = (Return ps, s1) ->
  closeAllSessions s =
  match awaitAll ps s1 with
  | (Return _, s2) =>
      (Return tt,
       mkSystem (heap s2) (emit (Console "모든 세션이 종료됨" None) (setSessions [] (sworld s2))))
  | (Throw e, s2) => (Throw e, s2)
  end.
Proof.
  intros E.
  unfold closeAllSessions, sessionCount, inWorldS, console_error, zoom, bind. cbn.
  cbn in E. rewrite E. destruct (awaitAll ps s1) as [[[]|e] s2]; reflexivity.
Qed.

(** One [close()] of the sweep changes the transport it is called on,
    and that one as [close] does. *)
Lemma startClose_heap r s t :
  heap s !! r = Some t ->
  heap (snd (startClose r s)) =
  <[r := self (snd (close (mkTState t (sworld s))))]> (heap s).
Proof.
  intros Hr. unfold startClose. rewrite (invoke_spec _ _ _ _ Hr). reflexivity.
Qed.

Lemma startClose_dangling r s : heap s !! r = None -> snd (startClose r s) = s.
Proof. intros Hr. unfold startClose, invoke. rewrite Hr. reflexivity. Qed.

Lemma startClose_keeps_closed r s i t :
  heap s !! i = Some t -> closed t = true -> heap (snd (startClose r s)) !! i = Some t.
Proof.
  intros Hi Hc. destruct (heap s !! r) as [t0|] eqn:Hr.
  - rewrite (startClose_heap _ _ _ Hr). destruct (decide (r = i)) as [->|Hne].
    + rewrite Hi in Hr. injection Hr as <-.
      rewrite close_closed by exact Hc. cbn. rewrite list_insert_id; exact Hi.
    + rewrite list_lookup_insert_ne by exact Hne. exact Hi.
  - rewrite startClose_dangling by exact Hr. exact Hi.
Qed.

Lemma mapM_startClose_cons a l s :
  snd (mapM startClose (a :: l) s) = snd (mapM startClose l (snd (startClose a s))).
Proof.
  destruct (startClose_spec a s) as (p & Hp & _).
  destruct (mapM_startClose l (snd (startClose a s))) as (ps & Hps & _).
  cbn [mapM]. unfold bind.
  destruct (startClose a s) as [o s1]. cbn [fst snd] in *. subst o.
  destruct (mapM startClose l s1) as [o s2]. cbn [fst snd] in *. subst o.
  reflexivity.
Qed.

Lemma sweep_keeps_closed l : forall s i t,
  heap s !! i = Some t -> closed t = true ->
  heap (snd (mapM startClose l s)) !! i = Some t.
Proof.
  induction l as [|a l IH]; intros s i t Hi Hc; [exact Hi|].
  rewrite mapM_startClose_cons. apply IH; [|exact Hc].
  apply startClose_keeps_closed; assumption.
Qed.

(** After the sweep every transport of the snapshot is what [close()]
    made of it when its turn came. *)
Lemma sweep_closes l : forall s r t,
  In r l -> heap s !! r = Some t ->
  exists w, heap (snd (mapM startClose l s)) !! r =
            Some (self (snd (close (mkTState t w)))).
Proof.
  induction l as [|a l IH]; intros s r t Hin Hr; [destruct Hin|].
  rewrite mapM_startClose_cons.
  destruct (decide (a = r)) as [->|Hne].
  - exists (sworld s). apply sweep_keeps_closed; [|apply close_sets_closed].
    rewrite (startClose_heap _ _ _ Hr).
    apply list_lookup_insert_eq. eapply lookup_lt_Some, Hr.
  - destruct Hin as [->|Hin]; [contradiction|].
    apply IH; [exact Hin|].
    destruct (heap s !! a) as [ta|] eqn:Ha.
    + rewrite (startClose_heap _ _ _ Ha). rewrite list_lookup_insert_ne by exact Hne.
      exact Hr.
    + rewrite startClose_dangling by exact Ha. exact Hr.
Qed.

Lemma closeAllSessions_heap s :
  heap (snd (closeAllSessions s)) =
  heap (snd (mapM startClose (map snd (sessions (sworld s)))
               (mkSystem (heap s)
                  (emit (Console (NilZero.string_of_uint
                                    (Nat.to_uint (length (sessions (sworld s))))
                                  +:+ "개의 활성 세션 종료 중...") None) (sworld s))))).
Proof.
  set (s0 := mkSystem (heap s) _).
  destruct (mapM_startClose (map snd (sessions (sworld s))) s0) as (ps & Hps & _).
  destruct (mapM startClose (map snd (sessions (sworld s))) s0) as [o s1] eqn:E.
  cbn [fst snd] in *. subst o.
  destruct (awaitAll_spec ps s1) as (Hheap & _).
  rewrite (closeAllSessions_run s ps s1 E).
  destruct (awaitAll ps s1) as [[[]|e] s2]; cbn [fst snd heap] in *; exact Hheap.
Qed.

Lemma closeAllSessions_completed s :
  fst (closeAllSessions s) = Return tt ->
  sessions (sworld (snd (closeAllSessions s))) = [].
Proof.
  set (s0 := mkSystem (heap s)
       (emit (Console (NilZero.string_of_uint (Nat.to_uint (length (sessions (sworld s))))
                       +:+ "개의 활성 세션 종료 중...") None) (sworld s))).
  destruct (mapM_startClose (map snd (sessions (sworld s))) s0) as (ps & Hps & _).
  destruct (mapM startClose (map snd (sessions (sworld s))) s0) as [o s1] eqn:E.
  cbn [fst] in Hps. subst o.
  rewrite (closeAllSessions_run s ps s1 E).
  destruct (awaitAll ps s1) as [[[]|e] s2]; cbn; [reflexivity | discriminate].
Qed.

Lemma closeAllSessions_completes s :
  Forall noNullish (heap s) -> fst (closeAllSessions s) = Return tt.
Proof.
  set (s0 := mkSystem (heap s)
       (emit (Console (NilZero.string_of_uint (Nat.to_uint (length (sessions (sworld s))))
                       +:+ "개의 활성 세션 종료 중...") None) (sworld s))).
  destruct (mapM_startClose (map snd (sessions (sworld s))) s0)
    as (ps & Hps & _ & _ & Hsettle).
  destruct (mapM startClose (map snd (sessions (sworld s))) s0) as [o s1] eqn:E.
  cbn [fst snd] in *. subst o.
  destruct (awaitAll_spec ps s1) as (_ & _ & Hret).
  rewrite (closeAllSessions_run s ps s1 E). intros Hall.
  specialize (Hret (Hsettle Hall)).
  destruct (awaitAll ps s1) as [[[]|e] s2]; cbn [fst] in *; [reflexivity | discriminate].
Qed.

(** X18. [closeAllSessions] runs [close()] on every transport of the
    snapshot, whatever the sinks and the callbacks of the others do:
    afterwards each of them is what [close()] made of it when its turn
    came, so it is closed, and it carries the close envelope if it was
    open with a sink that takes the writes. When the call completes,
    the table is empty; and it completes whenever no callback of a
    transport throws [null]/[undefined]. *)
Theorem closeAllSessions_closes_all s :
  let s' := snd (closeAllSessions s) in
  (forall sid r t,
      In (sid, r) (sessions (sworld s)) -> heap s !! r = Some t ->
      exists w, heap s' !! r = Some (self (snd (close (mkTState t w))))) /\
  (forall sid r t,
      In (sid, r) (sessions (sworld s)) -> heap s !! r = Some t ->
      exists t', heap s' !! r = Some t' /\ closed t' = true) /\
  (forall sid r t,
      In (sid, r) (sessions (sworld s)) -> heap s !! r = Some t ->
      closed t = false -> writeFailure (response t) = None ->
      exists t', heap s' !! r = Some t' /\
                 chunks (response t') = chunks (response t) ++ closeFrame) /\
  (fst (closeAllSessions s) = Return tt -> sessions (sworld s') = []) /\
  (Forall noNullish (heap s) -> fst (closeAllSessions s) = Return tt).
Proof.
  cbn zeta.
  assert (Hsweep : forall sid r t,
             In (sid, r) (sessions (sworld s)) -> heap s !! r = Some t ->
             exists w, heap (snd (closeAllSessions s)) !! r =
                       Some (self (snd (close (mkTState t w))))).
  { intros sid r t Hin Hr. rewrite closeAllSessions_heap.
    apply sweep_closes; [|exact Hr].
    apply in_map_iff. exists (sid, r). split; [reflexivity | exact Hin]. }
  split; [exact Hsweep|]. split; [|split; [|split]].
  - intros sid r t Hin Hr. destruct (Hsweep sid r t Hin Hr) as [w Hw].
    eexists. split; [exact Hw | apply close_sets_closed].
  - intros sid r t Hin Hr Hopen Hok. destruct (Hsweep sid r t Hin Hr) as [w Hw].
    eexists. split; [exact Hw|].
    apply (close_writes_frame (mkTState t w)); assumption.
  - apply closeAllSessions_completed.
  - apply closeAllSessions_completes.
Qed.

Lemma closeAllSessions_closes_all_witness :
  fst (closeAllSessions threeSessions) = Return tt /\
  sessions (sworld (snd (closeAllSessions threeSessions))) = [] /\
  (exists t', heap (snd (closeAllSessions threeSessions)) !! 1 = Some t' /\ closed t' = true) /\
  (exists t', heap (snd (closeAllSessions threeSessions)) !! 0 = Some t' /\
              chunks (response t') = closeFrame).
Proof.
  destruct (closeAllSessions_closes_all threeSessions)
    as (_ & Hclosed & Hframe & Hempty & Hdone).
  assert (Hret : fst (closeAllSessions threeSessions) = Return tt).
  { apply Hdone. unfold threeSessions, noNullish, throwsNoNullish. cbn.
    repeat constructor; intros f a ss [= <-]; discriminate. }
  split; [exact Hret|]. split; [apply Hempty, Hret|]. split.
  - apply (Hclosed "b"%string 1 (setOnclose (Some (dropsEntry "b")) (self failingSinkState)));
      [cbn; auto | reflexivity].
  - apply (Hframe "a"%string 0 (setOnclose (Some (dropsEntry "a")) demoTransport));
      [cbn; auto | reflexivity | reflexivity | reflexivity].
Defined.

(** C6. The failing run: two open sessions, the [onclose] of the first
    throws [undefined]. Both transports are closed by the sweep, but the
    handler attached to the first promise fails on [err.message], so
    [closeAllSessions] is rejected with that [TypeError] and the table
    is not cleared. *)
Lemma closeAllSessions_rejects_on_undefined :
  fst (closeAllSessions undefinedThrowSystem) =
    Throw (JsError "TypeError: Cannot read properties of undefined (reading 'message')") /\
  sessions (sworld (snd (closeAllSessions undefinedThrowSystem))) =
    [("s-1", 0); ("s-2", 1)] /\
  (closed <$> heap (snd (closeAllSessions undefinedThrowSystem))) = [true; true] /\
  ((fun t => chunks (response t)) <$> heap (snd (closeAllSessions undefinedThrowSystem))) =
    [closeFrame; closeFrame].
Proof. repeat split; reflexivity. Qed.

(* ================================================================= *)
(** ** More on the transport *)

Lemma send_accepted m s :
  closed (self s) = false ->
  writeFailure (response (self s)) = None ->
  send m s =
  (Return tt,
   mkTState (setResponse (accepted (messageFrame m) (response (self s))) (self s))
            (world s)).
Proof.
  intros Hopen Hok. unfold send, bind, this. rewrite Hopen.
  apply sendEvent_accepted, Hok.
Qed.

Lemma sends_run ms : forall s,
  closed (self s) = false ->
  writeFaults (response (self s)) = [] ->
  closed (self (runOps (map OpSend ms) s)) = false /\
  writeFaults (response (self (runOps (map OpSend ms) s))) = [] /\
  world (runOps (map OpSend ms) s) = world s /\
  chunks (response (self (runOps (map OpSend ms) s))) =
    chunks (response (self s)) ++ concat (map messageFrame ms).
Proof.
  induction ms as [|m ms IH]; intros s Hopen Hplan; cbn [map runOps concat].
  - rewrite app_nil_r. auto.
  - cbn [step]. rewrite send_accepted
      by (try assumption; unfold writeFailure; rewrite Hplan; reflexivity).
    cbn [snd].
    destruct (IH (mkTState (setResponse (accepted (messageFrame m) (response (self s)))
                                        (self s)) (world s)))
      as (H1 & H2 & H3 & H4).
    + exact Hopen.
    + cbn. rewrite Hplan. reflexivity.
    + split; [exact H1|]. split; [exact H2|]. split; [exact H3|].
      rewrite H4. cbn. rewrite <- app_assoc. reflexivity.
Qed.

(** X1. Messages sent one after the other on an open transport whose
    sink takes every write reach the sink as one message envelope each,
    in the order of the calls; every call returns normally, the
    transport stays open, and nothing else is touched. *)
Theorem sends_arrive_in_order s ms :
  closed (self s) = false ->
  writeFaults (response (self s)) = [] ->
  chunks (response (self (runOps (map OpSend ms) s))) =
    chunks (response (self s)) ++ concat (map messageFrame ms) /\
  closed (self (runOps (map OpSend ms) s)) = false /\
  world (runOps (map OpSend ms) s) = world s /\
  (forall m, fst (send m (runOps (map OpSend ms) s)) = Return tt).
Proof.
  intros Hopen Hplan.
  destruct (sends_run ms s Hopen Hplan) as (H1 & H2 & H3 & H4).
  split; [exact H4|]. split; [exact H1|]. split; [exact H3|].
  intros m. rewrite send_accepted; [reflexivity | exact H1 |].
  unfold writeFailure. rewrite H2. reflexivity.
Qed.

Lemma sends_arrive_in_order_witness :
  chunks (response (self (runOps (map OpSend [JStr "a"; JNum 2]) demoState))) =
    messageFrame (JStr "a") ++ messageFrame (JNum 2).
Proof.
  destruct (sends_arrive_in_order demoState [JStr "a"; JNum 2] eq_refl eq_refl)
    as (H & _).
  exact H.
Defined.

(** X2. A write failure during [start()] is not reported to the caller
    either: when the sink fails on the endpoint envelope and [onerror]
    returns, [start()] returns normally and leaves the transport
    closed, with the failure logged. *)
Theorem start_write_failure_closes s e :
  closed (self s) = false ->
  writeFailure (response (self s)) = Some e ->
  returns (onerror (self s)) ->
  fst (start s) = Return tt /\
  closed (self (snd (start s))) = true /\
  (exists rest,
      trace (world (snd (start s))) =
      trace (world s) ++
        Console "Error sending SSE event:" (Some e) :: reported (self s) e ++ rest).
Proof.
  open_state s. cbn. intros -> Hfail Herr.
  apply writeFailure_Some in Hfail. cbn in Hfail.
  destruct Hfail as [[plan' ->] | [plan' ->]]; unfold reported;
    unfold_js; run_with close_facts; try callback_contra;
    repeat match goal with H : _ /\ _ |- _ => destruct H end;
    unfold grows in *; cbn in *;
    repeat match goal with H : exists _, _ |- _ => destruct H as [? H] end;
    repeat match goal with H : _ /\ _ |- _ => destruct H end;
    (split; [reflexivity|]); (split; [assumption|]);
    match goal with H : trace _ = _ |- _ => rewrite H end;
    rewrite <- ?app_assoc; cbn; eexists; reflexivity.
Qed.

Lemma start_write_failure_closes_witness :
  fst (start watchedBrokenPipeState) = Return tt /\
  closed (self (snd (start watchedBrokenPipeState))) = true.
Proof.
  assert (H : returns (onerror (self watchedBrokenPipeState)))
    by (intros f a ss [= <-]; reflexivity).
  destruct (start_write_failure_closes watchedBrokenPipeState EPIPE eq_refl eq_refl H)
    as (H1 & H2 & _).
  split; assumption.
Defined.

Lemma close_working_sink_run s :
  closed (self s) = false ->
  writeFailure (response (self s)) = None ->
  endFault (response (self s)) = None ->
  fst (close s) =
    fst (invokeCallback (sessionId (self s)) (onclose (self s)) OnClose tt (world s)) /\
  world (snd (close s)) =
    snd (invokeCallback (sessionId (self s)) (onclose (self s)) OnClose tt (world s)) /\
  chunks (response (self (snd (close s)))) = chunks (response (self s)) ++ closeFrame /\
  ended (response (self (snd (close s)))) = true /\
  closed (self (snd (close s))) = true.
Proof.
  open_state s. cbn. intros -> Hok ->.
  apply writeFailure_None in Hok. cbn in Hok.
  destruct Hok as [-> | [-> | [plan' ->]]]; unfold_close; unfold_js;
    run; rewrite <- ?app_assoc; repeat split; reflexivity.
Qed.

(** X3. [close()] on an open transport whose sink works writes exactly
    the close envelope, ends the sink, sets the flag and then makes one
    callback call, [onclose] (if registered); what [onclose] throws is
    what [close()] is rejected with. [onerror] is not called. *)
Theorem close_on_working_sink s :
  closed (self s) = false ->
  writeFailure (response (self s)) = None ->
  endFault (response (self s)) = None ->
  fst (close s) =
    fst (invokeCallback (sessionId (self s)) (onclose (self s)) OnClose tt (world s)) /\
  world (snd (close s)) =
    snd (invokeCallback (sessionId (self s)) (onclose (self s)) OnClose tt (world s)) /\
  chunks (response (self (snd (close s)))) = chunks (response (self s)) ++ closeFrame /\
  ended (response (self (snd (close s)))) = true /\
  closed (self (snd (close s))) = true.
Proof. apply close_working_sink_run. Qed.

Lemma close_on_working_sink_witness :
  fst (close listenedState) = Return tt /\
  trace (world (snd (close listenedState))) = [Called "s-1" OnClose] /\
  chunks (response (self (snd (close listenedState)))) = closeFrame /\
  ended (response (self (snd (close listenedState)))) = true.
Proof.
  destruct (close_on_working_sink listenedState eq_refl eq_refl eq_refl)
    as (H1 & H2 & H3 & H4 & _).
  split; [rewrite H1; reflexivity|]. split; [rewrite H2; reflexivity|].
  split; [exact H3 | exact H4].
Defined.

(** X4. [close()] ends the sink even when the close envelope cannot be
    written: the write failure is handled inside [sendEvent], after
    which [response.end()] is still called. This holds for every write
    plan, provided [end()] itself works and [onerror] returns. *)
Theorem close_ends_sink_despite_write_failure s :
  closed (self s) = false ->
  endFault (response (self s)) = None ->
  returns (onerror (self s)) ->
  ended (response (self (snd (close s)))) = true.
Proof.
  open_state s. cbn. intros -> -> Herr. unfold_close. unfold_js.
  run; try reflexivity; callback_contra.
Qed.

Lemma close_ends_sink_despite_write_failure_witness :
  writeFailure (response (self lossyState)) = Some EPIPE /\
  chunks (response (self (snd (close lossyState)))) = [] /\
  ended (response (self (snd (close lossyState)))) = true.
Proof.
  split; [reflexivity|]. split; [reflexivity|].
  apply (close_ends_sink_despite_write_failure lossyState); try reflexivity.
  intros f a ss [= <-]; reflexivity.
Defined.

Lemma step_on_closed op s :
  closed (self s) = true ->
  response (self (snd (step op s))) = response (self s) /\
  closed (self (snd (step op s))) = true /\
  trace (world (snd (step op s))) = trace (world s) /\
  sessions (world (snd (step op s))) = sessions (world s).
Proof.
  open_state s. cbn. intros ->.
  destruct op; unfold_js; try rewrite close_closed by reflexivity; run;
    repeat split; reflexivity.
Qed.

(** X5. Nothing happens to a closed transport any more: whatever
    operations follow, its sink is not written to or ended again, no
    callback is called, nothing is logged and the session table is not
    touched. *)
Theorem closed_transport_is_inert s ops :
  closed (self s) = true ->
  response (self (runOps ops s)) = response (self s) /\
  closed (self (runOps ops s)) = true /\
  trace (world (runOps ops s)) = trace (world s) /\
  sessions (world (runOps ops s)) = sessions (world s).
Proof.
  revert s. induction ops as [|op ops IH]; intros s Hc; cbn [runOps]; [auto|].
  destruct (step_on_closed op s Hc) as (H1 & H2 & H3 & H4).
  destruct (IH (snd (step op s)) H2) as (K1 & K2 & K3 & K4).
  repeat split; congruence.
Qed.

Lemma closed_transport_is_inert_witness :
  response (self (runOps demoOps (snd (close listenedState)))) =
    response (self (snd (close listenedState))) /\
  trace (world (runOps demoOps (snd (close listenedState)))) = [Called "s-1" OnClose].
Proof.
  destruct (closed_transport_is_inert (snd (close listenedState)) demoOps eq_refl)
    as (H1 & _ & H3 & _).
  split; [exact H1 | rewrite H3; reflexivity].
Defined.

(** X6. A message delivered to an open transport that has no
    [onmessage] registered is dropped without a word: the request is
    acknowledged with 200 and the success body, nothing is logged and
    the transport is unchanged. *)
Theorem handlePostMessage_without_listener m s :
  closed (self s) = false ->
  onmessage (self s) = None ->
  headersSent (res (world s)) = false ->
  fst (handlePostMessage m s) = Return tt /\
  self (snd (handlePostMessage m s)) = self s /\
  statusCode (res (world (snd (handlePostMessage m s)))) = 200 /\
  chunks (res (world (snd (handlePostMessage m s)))) =
    chunks (res (world s)) ++ [stringify ackBody] /\
  trace (world (snd (handlePostMessage m s))) = trace (world s) /\
  sessions (world (snd (handlePostMessage m s))) = sessions (world s).
Proof.
  open_state s. cbn. intros -> -> ->. unfold_js. cbn. repeat split; reflexivity.
Qed.

Lemma handlePostMessage_without_listener_witness :
  fst (handlePostMessage (JStr "lost") demoState) = Return tt /\
  statusCode (res (world (snd (handlePostMessage (JStr "lost") demoState)))) = 200 /\
  trace (world (snd (handlePostMessage (JStr "lost") demoState))) = [].
Proof.
  destruct (handlePostMessage_without_listener (JStr "lost") demoState
              eq_refl eq_refl eq_refl) as (H1 & _ & H3 & _ & H5 & _).
  split; [exact H1|]. split; [exact H3 | exact H5].
Defined.

(** X7. When [onerror] itself throws while a write failure is being
    handled, [close()] is never reached: [send] is rejected with what
    [onerror] threw and the transport stays open although its sink has
    failed. *)
Theorem throwing_onerror_skips_close s m msg f e2 ss' :
  closed (self s) = false ->
  writeFailure (response (self s)) = Some (JsError msg) ->
  onerror (self s) = Some f ->
  f (JsError msg) (sessions (world s)) = (Some e2, ss') ->
  fst (send m s) = Throw e2 /\
  closed (self (snd (send m s))) = false /\
  ended (response (self (snd (send m s)))) = ended (response (self s)).
Proof.
  open_state s. cbn. intros -> Hfail -> Hthrow.
  apply writeFailure_Some in Hfail. cbn in Hfail.
  destruct Hfail as [[plan' ->] | [plan' ->]]; unfold_js; cbn; rewrite Hthrow;
    cbn; repeat split; reflexivity.
Qed.

Lemma throwing_onerror_skips_close_witness :
  fst (send (JStr "ping") lossyRudeState) = Throw (JsError "handler failed") /\
  closed (self (snd (send (JStr "ping") lossyRudeState))) = false.
Proof.
  destruct (throwing_onerror_skips_close lossyRudeState (JStr "ping") "write EPIPE"
              (rudeListener (JsError "handler failed")) (JsError "handler failed") []
              eq_refl eq_refl eq_refl eq_refl) as (H1 & H2 & _).
  split; assumption.
Defined.

(* ================================================================= *)
(** ** More on the session store *)

Section EntriesDelete.
Context {V : Type}.
Implicit Types (k : string) (v : V) (l : list (string * V)).

Lemma deleteEntry_absent k l : getEntry k l = None -> deleteEntry k l = l.
Proof.
  induction l as [|[k0 v0] l IH]; cbn; [reflexivity|].
  destruct (String.eqb k k0); [discriminate|]. intros H. rewrite IH by exact H. reflexivity.
Qed.

Lemma getEntry_deleteEntry_other k k' l :
  k' <> k -> getEntry k' (deleteEntry k l) = getEntry k' l.
Proof.
  intros Hne. induction l as [|[k0 v0] l IH]; cbn; [reflexivity|].
  destruct (String.eqb_spec k k0) as [->|Hk]; cbn.
  - destruct (String.eqb_spec k' k0); [contradiction | reflexivity].
  - rewrite IH. reflexivity.
Qed.

Lemma getEntry_deleteEntry k l :
  NoDup (map fst l) -> getEntry k (deleteEntry k l) = None.
Proof.
  induction l as [|[k0 v0] l IH]; cbn; [reflexivity|].
  intros Hnd. apply NoDup_cons in Hnd. destruct Hnd as [Hk0 Hnd].
  destruct (String.eqb_spec k k0) as [->|Hk]; cbn.
  - apply getEntry_None_keys. intros Hin. apply Hk0. apply list_elem_of_In, Hin.
  - destruct (String.eqb_spec k k0); [contradiction|]. apply IH, Hnd.
Qed.

Lemma length_deleteEntry k l v :
  getEntry k l = Some v -> S (length (deleteEntry k l)) = length l.
Proof.
  induction l as [|[k0 v0] l IH]; cbn; [discriminate|].
  destruct (String.eqb k k0); [reflexivity|]. intros H. cbn. rewrite IH by exact H. reflexivity.
Qed.

Lemma deleteEntry_NoDup k l : NoDup (map fst l) -> NoDup (map fst (deleteEntry k l)).
Proof.
  induction l as [|[k0 v0] l IH]; cbn; [auto|].
  intros Hnd. apply NoDup_cons in Hnd. destruct Hnd as [Hk0 Hnd].
  destruct (String.eqb k k0); [exact Hnd|]. cbn. apply NoDup_cons. split; [|apply IH, Hnd].
  intros Hin. apply Hk0. clear - Hin.
  induction l as [|[k1 v1] l IHl]; cbn in *; [exact Hin|].
  destruct (String.eqb k k1); cbn in *.
  - apply elem_of_cons. right. exact Hin.
  - apply elem_of_cons in Hin. apply elem_of_cons.
    destruct Hin as [-> | Hin]; [left; reflexivity | right; apply IHl, Hin].
Qed.

Lemma deleteEntry_setEntry k v l :
  getEntry k l = None -> deleteEntry k (setEntry k v l) = l.
Proof.
  induction l as [|[k0 v0] l IH]; cbn.
  - rewrite String.eqb_refl. reflexivity.
  - destruct (String.eqb k k0) eqn:E; [discriminate|]. intros H. cbn. rewrite E.
    rewrite IH by exact H. reflexivity.
Qed.

End EntriesDelete.

Lemma removeSession_run sid s :
  removeSession sid s =
  (Return (hasEntry sid (sessions (sworld s))),
   mkSystem (heap s)
            (mkWorld (deleteEntry sid (sessions (sworld s)))
                     (trace (sworld s) ++ [Console ("세션 제거됨: " +:+ sid) None])
                     (res (sworld s)))).
Proof. destruct s as [h [ss tr rs]]. reflexivity. Qed.

(** X8. [removeSession] of an id that is in the table returns [true];
    afterwards the id is not found, every other id is found as before,
    the count is one less, and the transport itself is untouched: it is
    removed from the table, not closed. *)
Theorem removeSession_present sid s r :
  getEntry sid (sessions (sworld s)) = Some r ->
  NoDup (map fst (sessions (sworld s))) ->
  let s' := snd (removeSession sid s) in
  fst (removeSession sid s) = Return true /\
  getEntry sid (sessions (sworld s')) = None /\
  (forall k, k <> sid ->
     getEntry k (sessions (sworld s')) = getEntry k (sessions (sworld s))) /\
  S (length (sessions (sworld s'))) = length (sessions (sworld s)) /\
  NoDup (map fst (sessions (sworld s'))) /\
  heap s' = heap s.
Proof.
  intros Hget Hnd. cbn zeta. rewrite removeSession_run. cbn.
  unfold hasEntry. rewrite Hget.
  split; [reflexivity|]. split; [apply getEntry_deleteEntry, Hnd|].
  split; [intros k Hk; apply getEntry_deleteEntry_other, Hk|].
  split; [eapply length_deleteEntry, Hget|].
  split; [apply deleteEntry_NoDup, Hnd | reflexivity].
Qed.

Lemma removeSession_present_witness :
  fst (removeSession "b" threeSessions) = Return true /\
  getEntry "b" (sessions (sworld (snd (removeSession "b" threeSessions)))) = None /\
  heap (snd (removeSession "b" threeSessions)) = heap threeSessions.
Proof.
  assert (Hnd : NoDup (map fst (sessions (sworld threeSessions)))).
  { cbn. repeat (apply NoDup_cons; split;
                 [rewrite ?elem_of_cons, elem_of_nil; intuition discriminate|]).
    apply NoDup_nil. constructor. }
  destruct (removeSession_present "b" threeSessions 1 eq_refl Hnd)
    as (H1 & H2 & _ & _ & _ & H6).
  split; [exact H1|]. split; [exact H2 | exact H6].
Defined.

(** X9. [removeSession] of an id that is not in the table returns
    [false] and leaves the table and the transports as they are; only
    the log line is written. *)
Theorem removeSession_absent sid s :
  getEntry sid (sessions (sworld s)) = None ->
  removeSession sid s =
  (Return false,
   mkSystem (heap s)
            (mkWorld (sessions (sworld s))
                     (trace (sworld s) ++ [Console ("세션 제거됨: " +:+ sid) None])
                     (res (sworld s)))).
Proof.
  intros Hget. rewrite removeSession_run. unfold hasEntry. rewrite Hget.
  rewrite deleteEntry_absent by exact Hget. reflexivity.
Qed.

Lemma removeSession_absent_witness :
  fst (removeSession "nobody" threeSessions) = Return false /\
  sessions (sworld (snd (removeSession "nobody" threeSessions))) =
    sessions (sworld threeSessions).
Proof.
  rewrite (removeSession_absent "nobody" threeSessions eq_refl).
  split; reflexivity.
Defined.

(** X10. Registering a transport under an id that is not in the table
    and then removing that id gives back the table as it was, entry by
    entry and in the same order; the count in between is one higher. *)
Theorem register_then_remove s r t :
  heap s !! r = Some t ->
  getEntry (sessionId t) (sessions (sworld s)) = None ->
  fst (sessionCount (snd (registerSession r s))) =
    Return (S (length (sessions (sworld s)))) /\
  fst (removeSession (sessionId t) (snd (registerSession r s))) = Return true /\
  sessions (sworld (snd (removeSession (sessionId t) (snd (registerSession r s))))) =
    sessions (sworld s).
Proof.
  intros Hr Hget. rewrite (registerSession_run _ _ _ Hr). cbn [snd].
  rewrite removeSession_run. cbn.
  split; [|split].
  - f_equal. rewrite <- (length_map fst (setEntry _ _ _)), keys_setEntry.
    unfold hasEntry. rewrite Hget. rewrite length_app, length_map. cbn. lia.
  - unfold hasEntry. rewrite getEntry_setEntry. reflexivity.
  - apply deleteEntry_setEntry, Hget.
Qed.

Lemma register_then_remove_witness :
  sessions (sworld (snd (removeSession "s-1"
                           (snd (registerSession 0
                                   (mkSystem [demoTransport]
                                             (mkWorld [("a", 7)] [] freshResponse)))))))
  = [("a", 7)].
Proof.
  exact (proj2 (proj2 (register_then_remove
                         (mkSystem [demoTransport] (mkWorld [("a", 7)] [] freshResponse))
                         0 demoTransport eq_refl eq_refl))).
Defined.

(* ================================================================= *)
(** ** The store and the transports together *)

Lemma post_after_removal sid body s :
  sid <> EmptyString ->
  getEntry sid (sessions (sworld s)) = None ->
  fst (postMessages (Some sid) body (nextRequest s)) = Return tt /\
  statusCode (res (sworld (snd (postMessages (Some sid) body (nextRequest s))))) = 404 /\
  heap (snd (postMessages (Some sid) body (nextRequest s))) = heap s /\
  trace (sworld (snd (postMessages (Some sid) body (nextRequest s)))) =
    trace (sworld s) ++
      [postLog; Console ("세션 ID에 대한 활성 트랜스포트 없음: " +:+ sid) None].
Proof.
  intros Hsid Hget.
  rewrite (post_unknown sid body (nextRequest s) Hsid); [|exact Hget | reflexivity].
  repeat split; reflexivity.
Qed.

(** X13. A POST for a session that is still in the table although its
    transport is closed is answered 500 with the plain text body of the
    router, not 404: [handlePostMessage] is rejected with "Transport is
    closed", no callback is called and the transport is not touched. *)
Theorem post_to_closed_session sid body s r t :
  sid <> EmptyString ->
  getEntry sid (sessions (sworld s)) = Some r ->
  heap s !! r = Some t ->
  closed t = true ->
  headersSent (res (sworld s)) = false ->
  postMessages (Some sid) body s =
  (Return tt,
   mkSystem (heap s)
     (mkWorld (sessions (sworld s))
        (trace (sworld s) ++
           [postLog; Console "메시지 처리 오류:" (Some TransportClosed)])
        (replied 500 "메시지 처리 오류" (res (sworld s))))).
Proof.
  intros Hsid Hget Hheap Hclosed Hsent.
  destruct sid as [|c sid]; [contradiction|].
  set (w1 := emit postLog (sworld s)).
  assert (Hrun : postMessages (Some (String c sid)) body s =
                 try_catch (invoke r (handlePostMessage body))
                   (fun error =>
                      inWorldS (console_error "메시지 처리 오류:" (Some error)) ;;
                      sent ← inWorldS (inRes (fun r => (Return (headersSent r), r)));
                      if negb sent
                      then inWorldS (inRes (Res.status 500 ;; Res.send "메시지 처리 오류"))
                      else ret tt)
                   (mkSystem (heap s) w1)).
  { unfold postMessages, getSession, inWorldS, console_error, zoom, bind. cbn.
    rewrite Hget. reflexivity. }
  rewrite Hrun. unfold try_catch.
  rewrite (invoke_spec r _ (mkSystem (heap s) w1) t Hheap).
  cbn [heap sworld].
  rewrite closed_handlePostMessage by exact Hclosed. cbn [fst snd self world].
  rewrite list_insert_id by exact Hheap.
  destruct s as [h [ss tr [hs st sent ch en plan ef]]]. cbn in *. subst sent.
  unfold inWorldS, inRes, console_error, zoom, bind, Res.status, Res.send. cbn.
  unfold emit, setRes, replied. cbn. rewrite <- app_assoc. reflexivity.
Qed.

Lemma post_to_closed_session_witness :
  statusCode (res (sworld (snd (postMessages (Some "s-1") JNull staleSystem)))) = 500 /\
  chunks (res (sworld (snd (postMessages (Some "s-1") JNull staleSystem)))) =
    ["메시지 처리 오류"%string].
Proof.
  assert (Hsid : "s-1"%string <> EmptyString) by discriminate.
  rewrite (post_to_closed_session "s-1" JNull staleSystem 0 (setClosed true demoTransport)
             Hsid eq_refl eq_refl eq_refl eq_refl).
  split; reflexivity.
Defined.

Lemma sessionCount_run s :
  sessionCount s = (Return (length (sessions (sworld s))), s).
Proof. destruct s as [h [ss tr rs]]. reflexivity. Qed.

(** X14. Once [closeAllSessions] has completed, no session is left to
    deliver to: the count is 0 and a POST with any session id is
    answered 404, with no transport touched and no callback called. *)
Theorem post_after_closeAll s sid body :
  fst (closeAllSessions s) = Return tt ->
  sid <> EmptyString ->
  let s1 := snd (closeAllSessions s) in
  fst (sessionCount s1) = Return 0 /\
  statusCode (res (sworld (snd (postMessages (Some sid) body (nextRequest s1))))) = 404 /\
  heap (snd (postMessages (Some sid) body (nextRequest s1))) = heap s1 /\
  trace (sworld (snd (postMessages (Some sid) body (nextRequest s1)))) =
    trace (sworld s1) ++
      [postLog; Console ("세션 ID에 대한 활성 트랜스포트 없음: " +:+ sid) None].
Proof.
  intros Hdone Hsid. cbn zeta.
  pose proof (closeAllSessions_completed s Hdone) as Hempty.
  assert (Hget : getEntry sid (sessions (sworld (snd (closeAllSessions s)))) = None)
    by (rewrite Hempty; reflexivity).
  destruct (post_after_removal sid body _ Hsid Hget) as (_ & P2 & P3 & P4).
  split; [|split; [exact P2 | split; [exact P3 | exact P4]]].
  rewrite sessionCount_run. cbn [fst]. rewrite Hempty. reflexivity.
Qed.

Lemma post_after_closeAll_witness :
  statusCode (res (sworld (snd (postMessages (Some "a") JNull
                                  (nextRequest (snd (closeAllSessions threeSessions)))))))
  = 404.
Proof.
  assert (Hsid : "a"%string <> EmptyString) by discriminate.
  exact (proj1 (proj2 (post_after_closeAll threeSessions "a" JNull eq_refl Hsid))).
Defined.

(** X15. [closeAllSessions] on an empty table calls no [close()]: it
    returns and leaves the transports and the table as they are,
    writing only its two log lines. So a second [closeAllSessions]
    after one that completed does nothing more. *)
Theorem closeAllSessions_again s :
  sessions (sworld s) = [] ->
  closeAllSessions s =
  (Return tt,
   mkSystem (heap s)
     (mkWorld [] (trace (sworld s) ++
                    [Console ("0" +:+ "개의 활성 세션 종료 중...") None;
                     Console "모든 세션이 종료됨" None])
              (res (sworld s)))).
Proof.
  destruct s as [h [ss tr rs]]. cbn. intros ->.
  unfold closeAllSessions, sessionCount, inWorldS, console_error, zoom, bind. cbn.
  unfold emit, setSessions. cbn. rewrite <- app_assoc. reflexivity.
Qed.

Lemma closeAllSessions_again_witness :
  heap (snd (closeAllSessions (snd (closeAllSessions threeSessions)))) =
    heap (snd (closeAllSessions threeSessions)) /\
  fst (closeAllSessions (snd (closeAllSessions threeSessions))) = Return tt.
Proof.
  rewrite (closeAllSessions_again (snd (closeAllSessions threeSessions)) eq_refl).
  split; reflexivity.
Defined.

(* ================================================================= *)
(** ** The tool registry and the CallTool handler *)

Section ToolFacts.
Variable mcpErrorText : string -> string.
Variable stringifyPretty : Json -> string.

(** X16. [getTool] never returns [undefined]: a registered tool is
    found under its name, the latest registration winning, registering
    a tool does not disturb the tools of other names, and an unknown
    name makes [getTool] throw the method-not-found error. *)
Theorem getTool_after_registerTool tool tools :
  getTool mcpErrorText (toolName tool) (registerTool tool tools) = Return tool /\
  (forall name, name <> toolName tool ->
     getTool mcpErrorText name (registerTool tool tools) = getTool mcpErrorText name tools) /\
  (forall name, getEntry name tools = None ->
     getTool mcpErrorText name tools = Throw (JsError (mcpErrorText ("Unknown tool: " +:+ name)))).
Proof.
  unfold getTool, registerTool. split; [|split].
  - rewrite getEntry_setEntry. reflexivity.
  - intros name Hne. rewrite getEntry_setEntry_other by exact Hne. reflexivity.
  - intros name ->. reflexivity.
Qed.

(** X17. The CallTool handler reports failures as results instead of
    rejecting: for a name that is not registered, and for a tool whose
    [execute] throws an [Error], it returns a result with [isError]
    true carrying the error message, and for a tool whose [execute]
    returns it returns that result under [toolResult]. It returns
    normally whenever what was thrown is not [null]/[undefined]. *)
Theorem callTool_reports_failures tools name arguments w :
  (getEntry name tools = None ->
   fst (callTool mcpErrorText stringifyPretty tools name arguments w) =
   Return (JObj [("toolResult",
                  JObj [("content",
                         JArr [JObj [("type", JStr "text");
                                     ("text", JStr (mcpErrorText ("Unknown tool: " +:+ name)))]]);
                        ("isError", JBool true)])])) /\
  (forall tool result,
     getEntry name tools = Some tool ->
     execute tool (match arguments with
                   | None | Some JNull => JObj []
                   | Some a => a
                   end) = Return result ->
     fst (callTool mcpErrorText stringifyPretty tools name arguments w) = Return (JObj [("toolResult", result)])) /\
  (forall tool msg,
     getEntry name tools = Some tool ->
     execute tool (match arguments with
                   | None | Some JNull => JObj []
                   | Some a => a
                   end) = Throw (JsError msg) ->
     fst (callTool mcpErrorText stringifyPretty tools name arguments w) =
     Return (JObj [("toolResult",
                    JObj [("content",
                           JArr [JObj [("type", JStr "text"); ("text", JStr msg)]]);
                          ("isError", JBool true)])])) /\
  ((forall tool a, getEntry name tools = Some tool -> execute tool a <> Throw JsNullish) ->
   exists result, fst (callTool mcpErrorText stringifyPretty tools name arguments w) = Return result).
Proof.
  unfold callTool, getTool, liftOutcome, try_catch, bind, console_error, ret.
  split; [|split; [|split]].
  - intros ->. reflexivity.
  - intros tool result -> ->. reflexivity.
  - intros tool msg -> ->. reflexivity.
  - intros Hok. destruct (getEntry name tools) as [tool|] eqn:E; cbn; [|eauto].
    specialize (Hok tool).
    match goal with |- context [execute tool ?a] =>
      specialize (Hok a eq_refl); destruct (execute tool a) as [r|[m|x|]] end;
      cbn; eauto. contradiction.
Qed.

End ToolFacts.

Lemma callTool_reports_failures_witness :
  fst (callTool (fun t => t) stringify
         (registerTool failingTool (registerTool echoTool [])) "fail" None idleWorld) =
  Return (JObj [("toolResult",
                 JObj [("content",
                        JArr [JObj [("type", JStr "text"); ("text", JStr "connection lost")]]);
                       ("isError", JBool true)])]) /\
  fst (callTool (fun t => t) stringify
         (registerTool failingTool (registerTool echoTool [])) "echo" (Some JNull) idleWorld) =
  Return (JObj [("toolResult", JObj [])]) /\
  fst (callTool (fun t => t) stringify
         (registerTool failingTool (registerTool echoTool [])) "drop" None idleWorld) =
  Return (JObj [("toolResult",
                 JObj [("content",
                        JArr [JObj [("type", JStr "text"); ("text", JStr "Unknown tool: drop")]]);
                       ("isError", JBool true)])]).
Proof.
  split; [|split].
  - destruct (callTool_reports_failures (fun t => t) stringify
                (registerTool failingTool (registerTool echoTool [])) "fail" None idleWorld)
      as (_ & _ & H & _).
    exact (H failingTool "connection lost"%string eq_refl eq_refl).
  - destruct (callTool_reports_failures (fun t => t) stringify
                (registerTool failingTool (registerTool echoTool [])) "echo" (Some JNull)
                idleWorld) as (_ & H & _).
    exact (H echoTool (JObj []) eq_refl eq_refl).
  - destruct (callTool_reports_failures (fun t => t) stringify
                (registerTool failingTool (registerTool echoTool [])) "drop" None idleWorld)
      as (H & _).
    exact (H eq_refl).
Defined.

Lemma getTool_after_registerTool_witness :
  getTool (fun t => t) "nobody" (registerTool echoTool []) =
  Throw (JsError "Unknown tool: nobody").
Proof.
  destruct (getTool_after_registerTool (fun t => t) echoTool (registerTool echoTool []))
    as (_ & _ & H).
  exact (H "nobody"%string eq_refl).
Defined.
